(** * FLIRT signature selection and match reconciliation (angr/analyses/flirt.py)

    A shallow embedding of [FlirtAnalysis]: the string heuristic that selects
    candidate signatures, the per-signature loop over the functions of the
    knowledge base, and the callback that resolves and names a match. *)

From Stdlib Require Import ZArith List String Ascii Lia Bool HexString.
From Stdlib Require Import Sorting.Sorted Sorting.Permutation.
From stdpp Require Import base option list gmap strings.

Open Scope Z_scope.

(** ** Python values and builtins used by the analysis *)

Module Py.

(** The exceptions that can leave the analysis. *)
Inductive exn : Type :=
| AttributeError
| ValueError
| RuntimeError
| UnicodeEncodeError
| OSError
| FlirtParseError.

Inductive result (A : Type) : Type :=
| Ok (a : A)
| Raise (e : exn).
Arguments Ok {A} a.
Arguments Raise {A} e.

Definition bytes := list Byte.byte.

(** [str.lower()] on the ASCII letters; other characters are kept. This is
    [str.lower] on strings of ASCII characters, which the names of the
    architectures and of the operating systems are; on a cased character
    outside ASCII, [str.lower] changes the character and this function
    does not. *)
Definition lower_char (c : ascii) : ascii :=
  let n := nat_of_ascii c in
  if ((65 <=? n) && (n <=? 90))%nat then ascii_of_nat (n + 32) else c.

Fixpoint lower (s : string) : string :=
  match s with
  | EmptyString => EmptyString
  | String c s' => String (lower_char c) (lower s')
  end.

(** [s.encode("ascii")]: a character above 127 raises. *)
Fixpoint encode_ascii (s : string) : result bytes :=
  match s with
  | EmptyString => Ok []
  | String c s' =>
      if (nat_of_ascii c <? 128)%nat then
        match encode_ascii s' with
        | Ok bs => Ok (byte_of_ascii c :: bs)
        | Raise e => Raise e
        end
      else Raise UnicodeEncodeError
  end.

Definition byte_eqb (a b : Byte.byte) : bool := Byte.eqb a b.

(** [needle] is a prefix of [hay]. *)
Fixpoint startswith (hay needle : bytes) : bool :=
  match needle, hay with
  | [], _ => true
  | _ :: _, [] => false
  | n :: needle', h :: hay' => byte_eqb n h && startswith hay' needle'
  end.

(** [needle in hay] on bytes objects. *)
Fixpoint bytes_in (needle hay : bytes) : bool :=
  startswith hay needle ||
  match hay with
  | [] => false
  | _ :: hay' => bytes_in needle hay'
  end.

(** [sorted(l, key=key, reverse=True)]: stable, largest key first. *)
Section Sorted.
Context {A : Type} (key : A -> nat).

Fixpoint insert_desc (x : A) (l : list A) : list A :=
  match l with
  | [] => [x]
  | y :: l' =>
      if (key y <=? key x)%nat then x :: y :: l' else y :: insert_desc x l'
  end.

Definition sorted_desc (l : list A) : list A :=
  foldr insert_desc [] l.
End Sorted.

(** [max(s)] on a set of integers; the empty set raises [ValueError]. *)
Definition max (s : gset Z) : result Z :=
  match elements s with
  | [] => Raise ValueError
  | x :: xs => Ok (foldr Z.max x xs)
  end.

(** [f"{n:x}"]. *)
Definition format_x (n : Z) : string :=
  match n with
  | Z0 => "0"
  | Zpos p => HexString.Raw.of_pos p ""
  | Zneg p => String "-" (HexString.Raw.of_pos p "")
  end.

(** Truth value of a [str]. *)
Definition str_truthy (s : string) : bool :=
  match s with
  | EmptyString => false
  | String _ _ => true
  end.

End Py.

Import Py.

(** ** Data model *)

(** [angr.flirt.FlirtSignature], as its constructor is called in [__init__]:
    architecture, platform, library name, path of the signature file and an
    optional fifth field. *)
Record FlirtSignature : Type := mkFlirtSignature {
  arch : string;
  platform : string;
  sig_name : string;
  sig_path : string;
  sig_extra : option string
}.

#[global] Instance FlirtSignature_eq_dec : EqDecision FlirtSignature.
Proof. solve_decision. Defined.

(** [nampa.FlirtFunction]: the fields the callback reads. *)
Record FlirtFunction : Type := mkFlirtFunction {
  offset : Z;
  ff_name : string
}.

(** [angr.knowledge_plugins.functions.Function]: the attributes the analysis
    reads and writes. [blocks] maps each basic-block address of the function
    to the size of that block: [block_addrs_set] is its domain and
    [get_block(a).size] its value at [a]. *)
Record Function : Type := mkFunction {
  addr : Z;
  blocks : gmap Z Z;
  is_simprocedure : bool;
  is_plt : bool;
  is_default_name : bool;
  name : string;
  from_signature : option string
}.

Definition block_addrs_set (f : Function) : gset Z := dom (blocks f).

Definition get_block_size (f : Function) (a : Z) : Z :=
  default 0 (blocks f !! a).

(** A segment of the main object. *)
Record Segment : Type := mkSegment {
  vaddr : Z;
  memsize : Z;
  filesize : Z
}.

(** The global registries of [angr.flirt]. [STRING_TO_LIBRARIES] is a dict in
    insertion order whose values are sets; [LIBRARY_TO_SIGNATURES] and
    [FLIRT_SIGNATURES_BY_ARCH] are dicts with the empty list as default. *)
Record Catalog : Type := mkCatalog {
  STRING_TO_LIBRARIES : list (string * gset string);
  LIBRARY_TO_SIGNATURES : gmap string (list FlirtSignature);
  FLIRT_SIGNATURES_BY_ARCH : gmap string (list FlirtSignature)
}.

Definition library_signatures (cat : Catalog) (lib : string) : list FlirtSignature :=
  default [] (LIBRARY_TO_SIGNATURES cat !! lib).

(** ** The string heuristic: [_find_hits_by_strings] *)

Module Selector.

(** [library_hits], a [defaultdict(int)] in insertion order. *)
Definition hits := list (string * nat).

Definition hit_count (h : hits) (lib : string) : nat :=
  match list_find (λ kv, kv.1 = lib) h with
  | Some (_, kv) => kv.2
  | None => 0%nat
  end.

(** [library_hits[lib] += 1] *)
Fixpoint incr (lib : string) (h : hits) : hits :=
  match h with
  | [] => [(lib, 1%nat)]
  | (k, n) :: h' =>
      if decide (k = lib) then (k, S n) :: h' else (k, n) :: incr lib h'
  end.

(** [for lib in libs: library_hits[lib] += 1]. Python walks a set in an
    order that it does not specify; here the libraries are taken in the
    order of [elements]. The order decides only where libraries that are
    new to the table are put among themselves; the counts do not depend
    on it. *)
Definition credit (libs : gset string) (h : hits) : hits :=
  foldl (λ acc lib, incr lib acc) h (elements libs).

(** [for region in regions: if s.encode("ascii") in region: ...] *)
Fixpoint scan_regions (s : string) (libs : gset string)
    (regions : list bytes) (h : hits) : result hits :=
  match regions with
  | [] => Ok h
  | region :: regions' =>
      match encode_ascii s with
      | Raise e => Raise e
      | Ok needle =>
          scan_regions s libs regions'
            (if bytes_in needle region then credit libs h else h)
      end
  end.

(** [for s, libs in STRING_TO_LIBRARIES.items(): ...] *)
Fixpoint scan_tokens (tokens : list (string * gset string))
    (regions : list bytes) (h : hits) : result hits :=
  match tokens with
  | [] => Ok h
  | (s, libs) :: tokens' =>
      match scan_regions s libs regions h with
      | Raise e => Raise e
      | Ok h' => scan_tokens tokens' regions h'
      end
  end.

Definition sorted_libraries (h : hits) : list string :=
  sorted_desc (hit_count h) (map fst h).

(** The generator's output for the ranked libraries. *)
Definition yield_signatures (cat : Catalog) (arch_lowercase : string)
    (libs : list string) : list FlirtSignature :=
  flat_map
    (λ lib, List.filter (λ sig, bool_decide (arch sig = arch_lowercase))
              (library_signatures cat lib))
    libs.

(** [list(self._find_hits_by_strings(regions))], with [arch_name] the value
    of [self.project.arch.name]. *)
Definition _find_hits_by_strings (cat : Catalog) (arch_name : string)
    (regions : list bytes) : result (list FlirtSignature) :=
  match scan_tokens (STRING_TO_LIBRARIES cat) regions [] with
  | Raise e => Raise e
  | Ok library_hits =>
      Ok (yield_signatures cat (lower arch_name) (sorted_libraries library_hits))
  end.

End Selector.

(** ** The state of a run and the monad of the analysis *)

(** What a run does to the outside: files opened and closed, bytes loaded,
    the matcher invoked, and the messages logged. *)
Inductive Event : Type :=
| EvOpen (path : string)
| EvClose (path : string)
| EvLoad (start len : Z)
| EvMatch (start : Z) (buf : bytes)
| EvWarning (func_addr : Z)
| EvDebugIdentified (nm : string) (func_addr base_addr off : Z)
| EvDebugSignatures (n : nat).

(** The knowledge base is a store of [Function] objects in the order in which
    [kb.functions.values()] iterates; a reference to a function object is its
    index in the store. *)
Record World : Type := mkWorld {
  functions : list Function;
  open_files : list string;
  trace : list Event
}.

Definition M (A : Type) : Type := World -> World * result A.

Definition ret {A} (a : A) : M A := λ w, (w, Ok a).

Definition raise {A} (e : exn) : M A := λ w, (w, Raise e).

Definition bind {A B} (m : M A) (k : A -> M B) : M B :=
  λ w, match m w with
       | (w', Ok a) => k a w'
       | (w', Raise e) => (w', Raise e)
       end.

Notation "x <~ m ;; k" := (bind m (λ x, k))
  (at level 90, m at level 80, right associativity).
Notation "m ;;; k" := (bind m (λ _, k))
  (at level 90, right associativity).

Definition lift {A} (r : result A) : M A := λ w, (w, r).

Definition log (e : Event) : M unit :=
  λ w, (mkWorld (functions w) (open_files w) (trace w ++ [e]), Ok tt).

Definition get_functions : M (list Function) := λ w, (w, Ok (functions w)).

Definition set_function (i : nat) (f : Function) : M unit :=
  λ w, (mkWorld (<[i := f]> (functions w)) (open_files w) (trace w), Ok tt).

(** [for x in l: body(x)] *)
Fixpoint for_each {A} (l : list A) (body : A -> M unit) : M unit :=
  match l with
  | [] => ret tt
  | x :: l' => body x ;;; for_each l' body
  end.

Fixpoint remove_first (p : string) (l : list string) : list string :=
  match l with
  | [] => []
  | q :: l' => if decide (q = p) then l' else q :: remove_first p l'
  end.

(** ** The analysis *)

Record Project : Type := mkProject {
  arch_name : string;
  simos_name : string;
  is_arm_arch : bool;
  segments : list Segment
}.

Inductive SigArg : Type :=
| SigNone
| SigStr (path : string)
| SigObject (sig : FlirtSignature).

Module FlirtAnalysis.
Section Analysis.

(** The collaborators outside this file: the file system, the nampa parser
    and matcher, and the loader's memory. The matcher is given by the calls
    it makes to its callback, in order. *)
Variable FlirtFile : Type.
Variable open_rb : string -> result bytes.
Variable parse_flirt_file : bytes -> result FlirtFile.
Variable match_function : FlirtFile -> bytes -> Z -> list (Z * FlirtFunction).
Variable memory_load : Z -> Z -> bytes.

Variable project : Project.
Variable catalog : Catalog.

Definition _is_arm : bool := is_arm_arch project.

(** [with open(path, "rb") as f: body(f)] *)
Definition with_open {A} (path : string) (body : bytes -> M A) : M A :=
  λ w, match open_rb path with
       | Raise e => (w, Raise e)
       | Ok sigfile =>
           let w1 := mkWorld (functions w) (path :: open_files w)
                             (trace w ++ [EvOpen path]) in
           let '(w2, r) := body sigfile w1 in
           (mkWorld (functions w2) (remove_first path (open_files w2))
                    (trace w2 ++ [EvClose path]), r)
       end.

(** [kb.functions.get_by_addr(a)]; [None] stands for [KeyError]. *)
Definition get_by_addr (fs : list Function) (a : Z) : option nat :=
  fst <$> list_find (λ f, addr f = a) fs.

(** The lookup of [_on_func_matched] when the hit is not at the base. *)
Definition lookup_owner (fs : list Function) (func_addr : Z) : option nat :=
  match get_by_addr fs func_addr with
  | Some i => Some i
  | None => if _is_arm then get_by_addr fs (func_addr + 1) else None
  end.

(** The assignments under [if func.is_default_name]. *)
Definition rename (f : Function) (flirt_func : FlirtFunction) : Function :=
  mkFunction (addr f) (blocks f) (is_simprocedure f) (is_plt f)
    false
    (if decide (ff_name flirt_func ≠ "?") then ff_name flirt_func
     else "unknown_function_" +:+ format_x (addr f))
    (Some "flirt").

Definition _on_func_matched (func : nat) (base_addr : Z)
    (flirt_func : FlirtFunction) : M unit :=
  let func_addr := base_addr + offset flirt_func in
  fs <~ get_functions ;;
  let func' :=
    if decide (func_addr ≠ base_addr) then lookup_owner fs func_addr
    else Some func in
  match func' with
  | None => log (EvWarning func_addr)
  | Some i =>
      match fs !! i with
      | None => ret tt
      | Some f =>
          if is_default_name f then
            log (EvDebugIdentified (ff_name flirt_func) func_addr base_addr
                   (offset flirt_func)) ;;;
            set_function i (rename f flirt_func)
          else ret tt
      end
  end.

(** [start] and [end] of the bytes of a function. *)
Definition scan_window (func : Function) : result (Z * Z) :=
  let start := addr func in
  let start := if _is_arm then Z.land start 0xfffffffe else start in
  match Py.max (block_addrs_set func) with
  | Raise e => Raise e
  | Ok max_block_addr =>
      let end_ := max_block_addr + get_block_size func max_block_addr in
      let end_ := if _is_arm then Z.land end_ 0xfffffffe else end_ in
      Ok (start, end_)
  end.

(** The body of [for func in self.project.kb.functions.values()]. *)
Definition scan_function (flirt : FlirtFile) (i : nat) : M unit :=
  fs <~ get_functions ;;
  match fs !! i with
  | None => ret tt
  | Some func =>
      if is_simprocedure func || is_plt func then ret tt
      else if negb (is_default_name func) then ret tt
      else
        w <~ lift (scan_window func) ;;
        let '(start, end_) := w in
        log (EvLoad start (end_ - start + 0x100)) ;;;
        let func_bytes := memory_load start (end_ - start + 0x100) in
        log (EvMatch start func_bytes) ;;;
        for_each (match_function flirt func_bytes start)
          (λ hit, _on_func_matched i hit.1 hit.2)
  end.

Definition _match_all_against_one_signature (sig : FlirtSignature) : M unit :=
  with_open (sig_path sig) (λ sigfile,
    flirt <~ lift (parse_flirt_file sigfile) ;;
    fs <~ get_functions ;;
    for_each (seq 0 (length fs)) (scan_function flirt)).

(** [mem_regions] of [__init__]. *)
Definition load_regions : M (list bytes) :=
  let segs := List.filter (λ seg, (0 <? filesize seg) && (0 <? memsize seg))
                (segments project) in
  for_each segs (λ seg, log (EvLoad (vaddr seg) (memsize seg))) ;;;
  ret (map (λ seg, memory_load (vaddr seg) (memsize seg)) segs).

(** The [else] branch of [__init__]: the value of [self.signatures]. *)
Definition heuristic_signatures : M (option (list FlirtSignature)) :=
  if bool_decide (FLIRT_SIGNATURES_BY_ARCH catalog = ∅) then raise RuntimeError
  else
    mem_regions <~ load_regions ;;
    sigs <~ lift (Selector._find_hits_by_strings catalog (arch_name project)
                    mem_regions) ;;
    log (EvDebugSignatures (length sigs)) ;;;
    ret (Some sigs).

Definition temporary_signature (path : string) : FlirtSignature :=
  mkFlirtSignature (lower (arch_name project)) (lower (simos_name project))
    "Temporary" path None.

(** [for sig_ in self.signatures: self._match_all_against_one_signature(sig_)] *)
Definition match_signatures (sigs : list FlirtSignature) : M unit :=
  for_each sigs _match_all_against_one_signature.

(** [__init__]. The attribute [self.signatures] is [None] while unset. *)
Definition __init__ (sig : SigArg) : M unit :=
  signatures <~
    match sig with
    | SigNone => heuristic_signatures
    | SigStr path =>
        if str_truthy path then ret (Some [temporary_signature path])
        else heuristic_signatures
    | SigObject _ => ret None
    end ;;
  match signatures with
  | None => raise AttributeError
  | Some sigs => match_signatures sigs
  end.

End Analysis.
End FlirtAnalysis.

(** ** Notions of the specification *)

(** The loop of [_match_all_against_one_signature] scans the functions that
    are neither simulated procedures nor library stubs and still carry a
    placeholder name. *)
Definition eligible (f : Function) : bool :=
  negb (is_simprocedure f || is_plt f) && is_default_name f.

(** The address fix-up that [scan_window] applies to [start] and [end]. *)
Definition fixup (project : Project) (x : Z) : Z :=
  if is_arm_arch project then Z.land x 0xfffffffe else x.

(** Steps 4 and 5 of the namer on the function object [j]: it is renamed when
    it still carries a placeholder name and left alone otherwise. *)
Definition apply_name (fs : list Function) (j : nat) (flirt_func : FlirtFunction)
    : list Function :=
  match fs !! j with
  | Some f =>
      if is_default_name f then <[j := FlirtAnalysis.rename f flirt_func]> fs
      else fs
  | None => fs
  end.

(** Every function that carries a name in [fs] is the same object, with the
    same attributes, in [fs']. *)
Definition keeps_named (fs fs' : list Function) : Prop :=
  ∀ i f, fs !! i = Some f → is_default_name f = false → fs' !! i = Some f.

(** A computation that keeps every named function as it is. *)
Definition preserves {A} (m : M A) : Prop :=
  ∀ w, keeps_named (functions w) (functions (m w).1).

(** [needle] occurs in [hay] as a contiguous run of bytes. *)
Definition contained (needle hay : bytes) : Prop :=
  ∃ pre post, hay = pre ++ needle ++ post.

(** The token [s] can be encoded and its bytes occur in [region]. *)
Definition token_in (s : string) (region : bytes) : bool :=
  match encode_ascii s with
  | Ok needle => bytes_in needle region
  | Raise _ => false
  end.

(** The pair of a catalog entry and a buffer credits [lib]: [lib] is one of
    the libraries of the token, and the encoded token occurs in the buffer. *)
Definition credits_pair (lib : string) (entry : string * gset string)
    (region : bytes) : Prop :=
  lib ∈ entry.2 ∧ ∃ needle, encode_ascii entry.1 = Ok needle ∧ contained needle region.

Definition credits_pairb (lib : string) (p : (string * gset string) * bytes) : bool :=
  bool_decide (lib ∈ p.1.2) && token_in p.1.1 p.2.

(** The number of (token, buffer) pairs that credit [lib]. *)
Definition pair_hits (tokens : list (string * gset string)) (regions : list bytes)
    (lib : string) : nat :=
  length (List.filter (credits_pairb lib) (list_prod tokens regions)).

(** [l] is in descending order of [key]: no element has a smaller key than
    an element after it. *)
Definition descending {A} (key : A -> nat) (l : list A) : Prop :=
  StronglySorted (λ a b, (key b ≤ key a)%nat) l.

(** The table of hits that the loops of [_find_hits_by_strings] build holds
    every library once, with a positive count. *)
Definition hits_wf (h : Selector.hits) : Prop :=
  NoDup h.*1 ∧ Forall (λ kv, (0 < kv.2)%nat) h.

(** The attributes of a function that the analysis reads and never writes. *)
Definition frame (f : Function) : Z * gmap Z Z * bool * bool :=
  (addr f, blocks f, is_simprocedure f, is_plt f).

(** What a run may do to a function object: nothing, or name a function that
    had a placeholder name. *)
Definition named_by_flirt (f f' : Function) : Prop :=
  f' = f
  ∨ (is_default_name f = true ∧ is_default_name f' = false
     ∧ from_signature f' = Some "flirt"%string ∧ frame f' = frame f).

(** The knowledge base [fs'] comes from [fs] by naming some functions. *)
Definition evolves (fs fs' : list Function) : Prop :=
  Forall2 named_by_flirt fs fs'.

(** The state [w'] comes from [w] by naming some functions, with the same
    files open. *)
Definition run_rel (w w' : World) : Prop :=
  evolves (functions w) (functions w') ∧ open_files w' = open_files w.

Definition respects {A} (m : M A) : Prop :=
  ∀ w, run_rel w (m w).1.

(** A simulated procedure or a library stub. *)
Definition is_stub (f : Function) : bool := is_simprocedure f || is_plt f.

(** Every simulated procedure and every library stub of [fs] is the same
    object, with the same attributes, in [fs']. *)
Definition keeps_stubs (fs fs' : list Function) : Prop :=
  ∀ i f, fs !! i = Some f → is_stub f = true → fs' !! i = Some f.

(** The computation [m] takes the functions of every state to functions
    related by [R]. *)
Definition maintains (R : list Function -> list Function -> Prop) {A} (m : M A)
    : Prop :=
  ∀ w, R (functions w) (functions (m w).1).

(** The function object that a hit resolves to: the scanned function for a
    hit at the base, the owner found by the lookup otherwise. *)
Definition hit_target (project : Project) (fs : list Function) (func : nat)
    (base : Z) (ff : FlirtFunction) : option nat :=
  if decide (base + offset ff ≠ base)
  then FlirtAnalysis.lookup_owner project fs (base + offset ff)
  else Some func.

(** A hit is settled in [fs] when the function it resolves to, if there is
    one, carries a name. *)
Definition settled (project : Project) (fs : list Function) (i : nat)
    (hit : Z * FlirtFunction) : Prop :=
  match hit_target project fs i hit.1 hit.2 with
  | Some j => ∀ f, fs !! j = Some f → is_default_name f = false
  | None => True
  end.

(** The hits that the matcher reports when [func] is scanned. *)
Definition scanned_hits {FlirtFile : Type}
    (match_function : FlirtFile -> bytes -> Z -> list (Z * FlirtFunction))
    (memory_load : Z -> Z -> bytes) (project : Project) (flirt : FlirtFile)
    (func : Function) : list (Z * FlirtFunction) :=
  match FlirtAnalysis.scan_window project func with
  | Ok (start, end_) =>
      match_function flirt (memory_load start (end_ - start + 0x100)) start
  | Raise _ => []
  end.

(** Nothing is left to do for the signature database [flirt]: every function
    that would be scanned has a window, and all its hits are settled. *)
Definition stable_for {FlirtFile : Type}
    (match_function : FlirtFile -> bytes -> Z -> list (Z * FlirtFunction))
    (memory_load : Z -> Z -> bytes) (project : Project) (flirt : FlirtFile)
    (fs : list Function) : Prop :=
  ∀ i func, fs !! i = Some func → eligible func = true →
    (∃ win, FlirtAnalysis.scan_window project func = Ok win)
    ∧ Forall (settled project fs i)
        (scanned_hits match_function memory_load project flirt func).

(** The signature [sig] can be opened and parsed, and nothing is left to do
    for it in [fs]. *)
Definition done_with {FlirtFile : Type} (open_rb : string -> result bytes)
    (parse_flirt_file : bytes -> result FlirtFile)
    (match_function : FlirtFile -> bytes -> Z -> list (Z * FlirtFunction))
    (memory_load : Z -> Z -> bytes) (project : Project) (sig : FlirtSignature)
    (fs : list Function) : Prop :=
  ∃ sigfile flirt,
    open_rb (sig_path sig) = Ok sigfile
    ∧ parse_flirt_file sigfile = Ok flirt
    ∧ stable_for match_function memory_load project flirt fs.

(** The state [w] with the events [t] added to its log. *)
Definition extend (w : World) (t : list Event) : World :=
  mkWorld (functions w) (open_files w) (trace w ++ t).

(** ** Concrete inputs used in the examples below *)

Module Examples.

Definition no_file : string -> result bytes := λ _, Ok [].
Definition parse_any : bytes -> result unit := λ _, Ok tt.
Definition no_memory : Z -> Z -> bytes := λ _ _, [].
Definition no_match : unit -> bytes -> Z -> list (Z * FlirtFunction) :=
  λ _ _ _, [].

Definition x86_project : Project := mkProject "X86" "Linux" false [].
Definition arm_project : Project := mkProject "ARMEL" "Linux" true [].

Definition empty_catalog : Catalog := mkCatalog [] ∅ ∅.

(** A function at [0x1000] whose last block is [(0x1020, 0x10)]. *)
Definition func_1000 : Function :=
  mkFunction 0x1000 {[ 0x1000 := 0x20; 0x1020 := 0x10 ]}
    false false true "sub_1000" None.

(** A Thumb function: odd address, last block [(0x1021, 0x10)]. *)
Definition thumb_func : Function :=
  mkFunction 0x1001 {[ 0x1001 := 0x20; 0x1021 := 0x10 ]}
    false false true "sub_1001" None.

(** A function above the 32-bit range. *)
Definition high_func : Function :=
  mkFunction 0x100000001 {[ 0x100000001 := 0x10 ]}
    false false true "sub_100000001" None.

(** A function without basic blocks. *)
Definition blockless_func : Function :=
  mkFunction 0x2000 ∅ false false true "sub_2000" None.

(** A library stub with a placeholder name at [0x1040]. *)
Definition plt_stub : Function :=
  mkFunction 0x1040 {[ 0x1040 := 0x8 ]} false true true "sub_1040" None.

(** A function that already has a name. *)
Definition named_func : Function :=
  mkFunction 0x3000 {[ 0x3000 := 0x8 ]} false false false "main" None.

Definition world_of (fs : list Function) : World := mkWorld fs [] [].

(** A matcher that reports, when it scans from [0x1000], the module start
    and a second public function at offset [0x40]. *)
Definition match_two : unit -> bytes -> Z -> list (Z * FlirtFunction) :=
  λ _ _ start,
    if start =? 0x1000
    then [(start, mkFlirtFunction 0 "inflate");
          (start, mkFlirtFunction 0x40 "inflate_fast")]
    else [].

(** A parser that rejects the file whose first byte is zero. *)
Definition parse_nonzero : bytes -> result unit :=
  λ b, match b with
       | Byte.x00 :: _ => Raise FlirtParseError
       | _ => Ok tt
       end.

Definition files_bad_good : string -> result bytes :=
  λ path, if String.eqb path "bad.sig" then Ok [Byte.x00]
          else if String.eqb path "good.sig" then Ok [Byte.x01]
          else Raise OSError.

Definition sig_of (a path : string) : FlirtSignature :=
  mkFlirtSignature a "linux" "lib" path None.

(** A Thumb function registered at the odd address [0x1041]. *)
Definition thumb_helper : Function :=
  mkFunction 0x1041 {[ 0x1041 := 0x8 ]} false false true "sub_1041" None.

(** The run of the two signatures [bad.sig] and [good.sig]. *)
Definition run_bad_good : World * result unit :=
  FlirtAnalysis.match_signatures unit files_bad_good parse_nonzero no_match
    no_memory x86_project
    [sig_of "x86" "bad.sig"; sig_of "x86" "good.sig"]
    (world_of [func_1000]).

(** The run of one signature file over a function and a library stub. *)
Definition run_over_stub : World * result unit :=
  FlirtAnalysis.__init__ unit no_file parse_any match_two no_memory
    x86_project empty_catalog (SigStr "a.sig")
    (world_of [func_1000; plt_stub]).

(** A matcher that only reports the start of the module it was given. *)
Definition match_base : unit -> bytes -> Z -> list (Z * FlirtFunction) :=
  λ _ _ start, [(start, mkFlirtFunction 0 "inflate")].

(** The bytes of an ASCII string. *)
Definition ascii_bytes (s : string) : bytes :=
  map byte_of_ascii (list_ascii_of_string s).

Definition zlib_entry : string * gset string :=
  ("inflate 1.2.11"%string, {[ "zlib"%string ]}).
Definition png_entry : string * gset string :=
  ("libpng version 1.6.37"%string, {[ "libpng"%string ]}).

Definition zlib_x86 : FlirtSignature :=
  mkFlirtSignature "x86" "linux" "zlib" "zlib_x86.sig" None.
Definition zlib_armel : FlirtSignature :=
  mkFlirtSignature "armel" "linux" "zlib" "zlib_armel.sig" None.
Definition zlib_x86_static : FlirtSignature :=
  mkFlirtSignature "x86" "linux" "zlib" "zlib_x86_static.sig" None.
Definition png_x86 : FlirtSignature :=
  mkFlirtSignature "x86" "linux" "libpng" "libpng_x86.sig" None.

(** A catalog with two libraries, each known by one version string. *)
Definition zlib_catalog : Catalog :=
  mkCatalog [zlib_entry; png_entry]
    {[ "zlib"%string := [zlib_x86; zlib_armel; zlib_x86_static];
       "libpng"%string := [png_x86] ]}
    {[ "x86"%string := [zlib_x86; zlib_x86_static; png_x86];
       "armel"%string := [zlib_armel] ]}.

(** A segment that holds the version string of zlib. *)
Definition zlib_region : bytes :=
  ascii_bytes " inflate 1.2.11 Copyright 1995-2017 Mark Adler ".

(** A target with one mapped segment, which holds the version string of
    zlib, and one segment without bytes in the file. *)
Definition zlib_project : Project :=
  mkProject "X86" "Linux" false
    [mkSegment 0x400000 0x30 0x30; mkSegment 0x600000 0x10 0].

Definition zlib_memory : Z -> Z -> bytes :=
  λ a _, if a =? 0x400000 then zlib_region else [].

(** A token with the character of code 233, which ASCII cannot encode. *)
Definition latin_entry : string * gset string :=
  (String (ascii_of_nat 233) "t", {[ "lib"%string ]}).

(** The catalog of zlib with one more token, outside ASCII. *)
Definition latin_catalog : Catalog :=
  mkCatalog [zlib_entry; latin_entry]
    {[ "zlib"%string := [zlib_x86; zlib_armel; zlib_x86_static] ]}
    {[ "x86"%string := [zlib_x86; zlib_x86_static];
       "armel"%string := [zlib_armel] ]}.

(** A signature whose architecture is stored in upper case. *)
Definition zlib_upper : FlirtSignature :=
  mkFlirtSignature "X86" "linux" "zlib" "zlib_X86.sig" None.

Definition upper_catalog : Catalog :=
  mkCatalog [zlib_entry] {[ "zlib"%string := [zlib_upper] ]}
    {[ "X86"%string := [zlib_upper] ]}.

End Examples.

(** * Facts about the builtins *)

Section PyFacts.

Lemma max_empty : Py.max ∅ = Raise ValueError.
Proof. unfold Py.max. by rewrite elements_empty. Qed.

Lemma foldr_max_ge (x : Z) (xs : list Z) :
  x ≤ foldr Z.max x xs ∧ ∀ y, y ∈ xs → y ≤ foldr Z.max x xs.
Proof.
  induction xs as [|a xs [IH1 IH2]]; simpl.
  - split; [lia|]. intros y Hy. inversion Hy.
  - split; [lia|]. intros y Hy.
    apply elem_of_cons in Hy as [->|Hy]; [lia|].
    specialize (IH2 y Hy). lia.
Qed.

Lemma foldr_max_in (x : Z) (xs : list Z) :
  foldr Z.max x xs = x ∨ foldr Z.max x xs ∈ xs.
Proof.
  induction xs as [|a xs IH]; simpl; [by left|].
  destruct (Z.max_spec a (foldr Z.max x xs)) as [[_ ->]|[_ ->]].
  - destruct IH as [->|IH]; [by left|]. right. by apply list_elem_of_further.
  - right. apply list_elem_of_here.
Qed.

(** [max] returns the greatest element of a non-empty set. *)
Lemma max_greatest (s : gset Z) (m : Z) :
  m ∈ s → (∀ a, a ∈ s → a ≤ m) → Py.max s = Ok m.
Proof.
  intros Hin Hub. unfold Py.max.
  destruct (elements s) as [|x xs] eqn:E.
  - apply elements_empty_inv in E. set_solver.
  - f_equal.
    assert (Hx : ∀ y, y ∈ x :: xs → y ∈ s).
    { intros y Hy. apply elem_of_elements. by rewrite E. }
    assert (Hm : m ∈ x :: xs) by (rewrite <- E; by apply elem_of_elements).
    destruct (foldr_max_ge x xs) as [G1 G2].
    assert (m ≤ foldr Z.max x xs).
    { apply elem_of_cons in Hm as [->|Hm]; auto. }
    assert (foldr Z.max x xs ≤ m).
    { apply Hub, Hx. destruct (foldr_max_in x xs) as [->|H']; [left|by right]. }
    lia.
Qed.

Lemma testbit_mask (n : Z) :
  0 ≤ n → Z.testbit 0xfffffffe n = (1 <=? n) && (n <? 32).
Proof.
  intros Hn. change 0xfffffffe with (Z.shiftl (Z.ones 31) 1).
  rewrite Z.shiftl_spec by done.
  destruct (Z.leb_spec 1 n).
  - rewrite Z.testbit_ones by lia. simpl.
    destruct (Z.leb_spec 0 (n - 1)), (Z.ltb_spec (n - 1) 31), (Z.ltb_spec n 32);
      simpl; try reflexivity; lia.
  - simpl. apply Z.testbit_neg_r. lia.
Qed.

(** Masking with [0xfffffffe] keeps bits 1 to 31 and clears all others. *)
Lemma testbit_land_mask (a n : Z) :
  0 ≤ n → Z.testbit (Z.land a 0xfffffffe) n = Z.testbit a n && (1 <=? n) && (n <? 32).
Proof. intros. rewrite Z.land_spec, testbit_mask by done. by rewrite andb_assoc. Qed.

Lemma land_mask_clearbit (a : Z) :
  Z.land a 0xfffffffe = Z.clearbit (a mod 2 ^ 32) 0.
Proof.
  rewrite Z.clearbit_spec', Z.ldiff_land, <- Z.land_ones by lia.
  rewrite <- Z.land_assoc. reflexivity.
Qed.

Lemma land_mask_small (a : Z) :
  0 ≤ a < 2 ^ 32 → Z.land a 0xfffffffe = Z.clearbit a 0.
Proof. intros. rewrite land_mask_clearbit. by rewrite Z.mod_small. Qed.

End PyFacts.

(** * Facts about a run *)

Section MonadFacts.

Lemma for_each_app {A} (l1 l2 : list A) (body : A -> M unit) (w : World) :
  for_each (l1 ++ l2) body w =
  match for_each l1 body w with
  | (w', Ok _) => for_each l2 body w'
  | (w', Raise e) => (w', Raise e)
  end.
Proof.
  revert w. induction l1 as [|x l1 IH]; intros w; simpl; [done|].
  unfold bind. destruct (body x w) as [w' [[]|e]]; [apply IH|done].
Qed.

Lemma for_each_raise {A} (pre post : list A) (x : A) (body : A -> M unit)
    (w w1 w2 : World) (e : exn) :
  for_each pre body w = (w1, Ok tt) →
  body x w1 = (w2, Raise e) →
  for_each (pre ++ x :: post) body w = (w2, Raise e).
Proof.
  intros Hpre Hx. rewrite for_each_app, Hpre. simpl. unfold bind.
  by rewrite Hx.
Qed.

Lemma seq_split (i n : nat) :
  (i < n)%nat → seq 0 n = seq 0 i ++ i :: seq (S i) (n - S i).
Proof.
  intros Hi. replace n with (i + S (n - S i))%nat at 1 by lia.
  rewrite seq_app. simpl. done.
Qed.

End MonadFacts.

Section RunFacts.

Context {FlirtFile : Type}.
Context (open_rb : string -> result bytes).
Context (parse_flirt_file : bytes -> result FlirtFile).
Context (match_function : FlirtFile -> bytes -> Z -> list (Z * FlirtFunction)).
Context (memory_load : Z -> Z -> bytes).
Context (project : Project) (catalog : Catalog).

Local Abbreviation scan_window := (FlirtAnalysis.scan_window project).
Local Abbreviation on_func_matched := (FlirtAnalysis._on_func_matched project).
Local Abbreviation scan_function :=
  (FlirtAnalysis.scan_function FlirtFile match_function memory_load project).
Local Abbreviation match_all :=
  (FlirtAnalysis._match_all_against_one_signature FlirtFile open_rb
     parse_flirt_file match_function memory_load project).
Local Abbreviation match_signatures :=
  (FlirtAnalysis.match_signatures FlirtFile open_rb parse_flirt_file
     match_function memory_load project).
Local Abbreviation init :=
  (FlirtAnalysis.__init__ FlirtFile open_rb parse_flirt_file match_function
     memory_load project catalog).

Lemma scan_window_last_block (func : Function) (maxb size : Z) :
  blocks func !! maxb = Some size →
  (∀ a, a ∈ block_addrs_set func → a ≤ maxb) →
  scan_window func =
    Ok (fixup project (addr func), fixup project (maxb + size)).
Proof.
  intros Hb Hub. unfold FlirtAnalysis.scan_window, fixup, FlirtAnalysis._is_arm.
  rewrite (max_greatest _ maxb).
  - unfold get_block_size. rewrite Hb. simpl. by destruct (is_arm_arch project).
  - unfold block_addrs_set. apply elem_of_dom. by eexists.
  - done.
Qed.

Lemma eligible_inv (f : Function) :
  eligible f = true →
  is_simprocedure f || is_plt f = false ∧ is_default_name f = true.
Proof.
  unfold eligible. intros [H1 H2]%andb_prop.
  split; [by apply negb_true_iff|done].
Qed.

(** What the loop body does on an eligible function, given its window. *)
Lemma scan_function_eligible (flirt : FlirtFile) (i : nat) (w : World)
    (func : Function) (start end_ : Z) :
  functions w !! i = Some func →
  eligible func = true →
  scan_window func = Ok (start, end_) →
  scan_function flirt i w =
  for_each
    (match_function flirt (memory_load start (end_ - start + 0x100)) start)
    (λ hit, on_func_matched i hit.1 hit.2)
    (mkWorld (functions w) (open_files w)
       (trace w ++ [EvLoad start (end_ - start + 0x100);
                    EvMatch start (memory_load start (end_ - start + 0x100))])).
Proof.
  intros Hi [He1 He2]%eligible_inv Hw.
  unfold FlirtAnalysis.scan_function, bind, get_functions. simpl.
  rewrite Hi, He1, He2. simpl. unfold lift. rewrite Hw. simpl.
  unfold bind, log. simpl. by rewrite <- app_assoc.
Qed.

Lemma scan_function_no_blocks (flirt : FlirtFile) (i : nat) (w : World)
    (func : Function) :
  functions w !! i = Some func →
  eligible func = true →
  block_addrs_set func = ∅ →
  scan_function flirt i w = (w, Raise ValueError).
Proof.
  intros Hi [He1 He2]%eligible_inv Hb.
  unfold FlirtAnalysis.scan_function, bind, get_functions. simpl.
  rewrite Hi, He1, He2. simpl.
  unfold lift, FlirtAnalysis.scan_window. rewrite Hb, max_empty. done.
Qed.

(** C2 (amended). For an eligible function whose last basic block is
    [(maxb, size)], the window is [start = fixup addr] and
    [end = fixup (maxb + size)], where the fix-up is the identity on targets
    that are not ARM and the mask [0xfffffffe] on ARM; the loop body asks the
    memory for [(end - start) + 0x100] bytes at [start] and hands them to the
    matcher. With start [0x1000] and last block [(0x1020, 0x10)] this is
    [start = 0x1000], [end = 0x1030] and a load of [0x130] bytes. *)
Theorem scan_window_and_load (flirt : FlirtFile) (w : World) (i : nat)
    (func : Function) (maxb size : Z) :
  functions w !! i = Some func →
  eligible func = true →
  blocks func !! maxb = Some size →
  (∀ a, a ∈ block_addrs_set func → a ≤ maxb) →
  let start := fixup project (addr func) in
  let end_ := fixup project (maxb + size) in
  let len := end_ - start + 0x100 in
  scan_window func = Ok (start, end_)
  ∧ scan_function flirt i w =
      for_each (match_function flirt (memory_load start len) start)
        (λ hit, on_func_matched i hit.1 hit.2)
        (mkWorld (functions w) (open_files w)
           (trace w ++ [EvLoad start len; EvMatch start (memory_load start len)]))
  ∧ (is_arm_arch project = false → start = addr func ∧ end_ = maxb + size)
  ∧ (addr func = 0x1000 → maxb = 0x1020 → size = 0x10 →
     start = 0x1000 ∧ end_ = 0x1030 ∧ len = 0x130).
Proof.
  intros Hi He Hb Hub start end_ len.
  assert (Hw := scan_window_last_block func maxb size Hb Hub).
  split; [exact Hw|]. split; [exact (scan_function_eligible flirt i w func start end_ Hi He Hw)|].
  split.
  - intros Harm. subst start end_. unfold fixup. by rewrite Harm.
  - intros Ha -> ->. subst len start end_. unfold fixup.
    rewrite Ha. by destruct (is_arm_arch project).
Qed.

(** C7 (amended). On ARM the window of an eligible function is
    [start = addr & 0xfffffffe] and [end = (maxb + size) & 0xfffffffe]: bit 0
    is cleared, bits 1 to 31 are kept and every bit from 32 upwards is
    cleared too, so the result is the address reduced modulo [2^32] with its
    low bit cleared; exactly the low bit is cleared when the address lies in
    [0, 2^32). *)
Theorem arm_window_mask (flirt : FlirtFile) (w : World) (i : nat)
    (func : Function) (maxb size : Z) :
  is_arm_arch project = true →
  functions w !! i = Some func →
  eligible func = true →
  blocks func !! maxb = Some size →
  (∀ a, a ∈ block_addrs_set func → a ≤ maxb) →
  let start := Z.land (addr func) 0xfffffffe in
  let end_ := Z.land (maxb + size) 0xfffffffe in
  let len := end_ - start + 0x100 in
  scan_window func = Ok (start, end_)
  ∧ scan_function flirt i w =
      for_each (match_function flirt (memory_load start len) start)
        (λ hit, on_func_matched i hit.1 hit.2)
        (mkWorld (functions w) (open_files w)
           (trace w ++ [EvLoad start len; EvMatch start (memory_load start len)]))
  ∧ start = Z.clearbit (addr func mod 2 ^ 32) 0
  ∧ end_ = Z.clearbit ((maxb + size) mod 2 ^ 32) 0
  ∧ (∀ n, 0 ≤ n →
       Z.testbit start n = Z.testbit (addr func) n && (1 <=? n) && (n <? 32))
  ∧ (∀ n, 0 ≤ n →
       Z.testbit end_ n = Z.testbit (maxb + size) n && (1 <=? n) && (n <? 32))
  ∧ (0 ≤ addr func < 2 ^ 32 → start = Z.clearbit (addr func) 0)
  ∧ (0 ≤ maxb + size < 2 ^ 32 → end_ = Z.clearbit (maxb + size) 0).
Proof.
  intros Harm Hi He Hb Hub start end_ len.
  assert (Hw : scan_window func = Ok (start, end_)).
  { rewrite (scan_window_last_block func maxb size Hb Hub).
    unfold fixup. by rewrite Harm. }
  split; [exact Hw|]. split; [exact (scan_function_eligible flirt i w func start end_ Hi He Hw)|].
  repeat split.
  - apply land_mask_clearbit.
  - apply land_mask_clearbit.
  - intros n Hn. by apply testbit_land_mask.
  - intros n Hn. by apply testbit_land_mask.
  - apply land_mask_small.
  - apply land_mask_small.
Qed.

(** C9. Constructed with a signature object, [__init__] never assigns
    [self.signatures]: the run raises [AttributeError] with the state
    untouched (no file opened, nothing loaded, matched or renamed). Only a
    non-empty path string makes the run match the one temporary signature. *)
Theorem init_with_signature_object (sig : FlirtSignature) (w : World) :
  init (SigObject sig) w = (w, Raise AttributeError)
  ∧ ∀ c path,
      init (SigStr (String c path)) w =
      match_signatures
        [mkFlirtSignature (lower (arch_name project))
           (lower (simos_name project)) "Temporary" (String c path) None] w.
Proof. split; [reflexivity|]. intros c path. reflexivity. Qed.

(** C10. An eligible function without basic blocks makes [max] raise
    [ValueError] in the loop body; the error leaves the loop over the
    functions, closes the signature file and ends the loop over the
    signatures: the functions after it are not scanned and the remaining
    signatures are not opened. *)
Theorem empty_block_set_aborts (w w2 : World) (sig : FlirtSignature)
    (rest : list FlirtSignature) (sigfile : bytes) (flirt : FlirtFile)
    (i : nat) (func : Function) :
  open_rb (sig_path sig) = Ok sigfile →
  parse_flirt_file sigfile = Ok flirt →
  (i < length (functions w))%nat →
  for_each (seq 0 i) (scan_function flirt)
    (mkWorld (functions w) (sig_path sig :: open_files w)
       (trace w ++ [EvOpen (sig_path sig)])) = (w2, Ok tt) →
  functions w2 !! i = Some func →
  eligible func = true →
  block_addrs_set func = ∅ →
  scan_function flirt i w2 = (w2, Raise ValueError)
  ∧ match_signatures (sig :: rest) w =
      (mkWorld (functions w2) (remove_first (sig_path sig) (open_files w2))
         (trace w2 ++ [EvClose (sig_path sig)]),
       Raise ValueError).
Proof.
  intros Hopen Hparse Hlt Hpre Hi He Hb.
  assert (Hbody := scan_function_no_blocks flirt i w2 func Hi He Hb).
  split; [exact Hbody|].
  unfold FlirtAnalysis.match_signatures. simpl. unfold bind at 1.
  unfold FlirtAnalysis._match_all_against_one_signature,
    FlirtAnalysis.with_open.
  rewrite Hopen. unfold bind at 1. unfold lift. rewrite Hparse.
  unfold bind at 1. unfold get_functions. simpl.
  rewrite (seq_split i (length (functions w)) Hlt).
  rewrite (for_each_raise _ _ _ _ _ _ _ _ Hpre Hbody). done.
Qed.

(** ** The callback *)

Lemma on_func_matched_resolved (func : nat) (base : Z) (ff : FlirtFunction)
    (w : World) (j : nat) :
  base + offset ff ≠ base →
  FlirtAnalysis.lookup_owner project (functions w) (base + offset ff) = Some j →
  functions (on_func_matched func base ff w).1 = apply_name (functions w) j ff
  ∧ open_files (on_func_matched func base ff w).1 = open_files w
  ∧ (on_func_matched func base ff w).2 = Ok tt.
Proof.
  intros Hne Hl.
  unfold FlirtAnalysis._on_func_matched, bind, get_functions, apply_name. simpl.
  destruct (decide (base + offset ff ≠ base)) as [_|]; [|done].
  rewrite Hl. destruct (functions w !! j) as [f|]; [|done].
  destruct (is_default_name f); done.
Qed.

Lemma rename_ext (f : Function) (ff ff' : FlirtFunction) :
  ff_name ff' = ff_name ff →
  FlirtAnalysis.rename f ff' = FlirtAnalysis.rename f ff.
Proof. intros H. unfold FlirtAnalysis.rename. by rewrite H. Qed.

Lemma apply_name_ext (fs : list Function) (j : nat) (ff ff' : FlirtFunction) :
  ff_name ff' = ff_name ff → apply_name fs j ff' = apply_name fs j ff.
Proof.
  intros H. unfold apply_name. destruct (fs !! j) as [f|]; [|done].
  by rewrite (rename_ext f ff ff' H).
Qed.

(** C8. A hit at an address other than the base whose owner lookup fails:
    on ARM, when the lookup one byte further finds the function [j], the
    knowledge base ends up as after any hit with the same name that lies
    directly at that further address (itself not at its base), namely with
    the naming steps applied to [j]; on other targets there is no second
    lookup and the hit is dropped: a warning is logged, no exception is
    raised, and neither the functions nor the open files change. *)
Theorem thumb_retry_symmetry (w : World) (func : nat) (base : Z)
    (ff : FlirtFunction) :
  base + offset ff ≠ base →
  FlirtAnalysis.get_by_addr (functions w) (base + offset ff) = None →
  (is_arm_arch project = true →
   ∀ j, FlirtAnalysis.get_by_addr (functions w) (base + offset ff + 1) = Some j →
     functions (on_func_matched func base ff w).1 = apply_name (functions w) j ff
     ∧ (on_func_matched func base ff w).2 = Ok tt
     ∧ ∀ func' base' ff',
         base' + offset ff' = base + offset ff + 1 →
         base' + offset ff' ≠ base' →
         ff_name ff' = ff_name ff →
         functions (on_func_matched func' base' ff' w).1 =
           functions (on_func_matched func base ff w).1
         ∧ open_files (on_func_matched func' base' ff' w).1 =
             open_files (on_func_matched func base ff w).1
         ∧ (on_func_matched func' base' ff' w).2 =
             (on_func_matched func base ff w).2)
  ∧ (is_arm_arch project = false →
     on_func_matched func base ff w =
       (mkWorld (functions w) (open_files w)
          (trace w ++ [EvWarning (base + offset ff)]), Ok tt)).
Proof.
  intros Hne Hnone. split.
  - intros Harm j Hj.
    assert (Hl : FlirtAnalysis.lookup_owner project (functions w)
                   (base + offset ff) = Some j).
    { unfold FlirtAnalysis.lookup_owner, FlirtAnalysis._is_arm.
      by rewrite Hnone, Harm. }
    destruct (on_func_matched_resolved func base ff w j Hne Hl) as (E1 & E2 & E3).
    split; [exact E1|]. split; [exact E3|].
    intros func' base' ff' Haddr Hne' Hname.
    assert (Hl' : FlirtAnalysis.lookup_owner project (functions w)
                    (base' + offset ff') = Some j).
    { unfold FlirtAnalysis.lookup_owner. by rewrite Haddr, Hj. }
    destruct (on_func_matched_resolved func' base' ff' w j Hne' Hl')
      as (E1' & E2' & E3').
    rewrite E1, E2, E3, E1', E2', E3'.
    by rewrite (apply_name_ext _ _ ff ff' Hname).
  - intros Harm.
    unfold FlirtAnalysis._on_func_matched, bind, get_functions. simpl.
    destruct (decide (base + offset ff ≠ base)) as [_|]; [|done].
    unfold FlirtAnalysis.lookup_owner, FlirtAnalysis._is_arm.
    by rewrite Hnone, Harm.
Qed.

(** ** Failure of one signature *)

Lemma remove_first_head (p : string) (l : list string) :
  remove_first p (p :: l) = l.
Proof. simpl. by destruct (decide (p = p)). Qed.

Lemma match_all_parse_failure (w : World) (sig : FlirtSignature)
    (sigfile : bytes) (e : exn) :
  open_rb (sig_path sig) = Ok sigfile →
  parse_flirt_file sigfile = Raise e →
  match_all sig w =
    (mkWorld (functions w) (open_files w)
       (trace w ++ [EvOpen (sig_path sig); EvClose (sig_path sig)]), Raise e).
Proof.
  intros Hopen Hparse.
  unfold FlirtAnalysis._match_all_against_one_signature,
    FlirtAnalysis.with_open.
  rewrite Hopen. unfold bind, lift. rewrite Hparse. simpl.
  destruct (decide (sig_path sig = sig_path sig)); [|done].
  by rewrite <- app_assoc.
Qed.

(** C6 (amended). When the database of one signature fails to parse, its
    file is closed again (the open files are those from before it was
    opened) and the error leaves the loop over the signatures: the run ends
    with that error, and no later signature is opened or matched. *)
Theorem parse_failure_aborts_run (w w1 : World) (pre rest : list FlirtSignature)
    (sig : FlirtSignature) (sigfile : bytes) (e : exn) :
  match_signatures pre w = (w1, Ok tt) →
  open_rb (sig_path sig) = Ok sigfile →
  parse_flirt_file sigfile = Raise e →
  match_signatures (pre ++ sig :: rest) w =
    (mkWorld (functions w1) (open_files w1)
       (trace w1 ++ [EvOpen (sig_path sig); EvClose (sig_path sig)]), Raise e).
Proof.
  intros Hpre Hopen Hparse.
  apply (for_each_raise pre rest sig _ w w1 _ e Hpre).
  by apply (match_all_parse_failure w1 sig sigfile e).
Qed.

(** ** Named functions are left alone *)

Lemma keeps_named_refl (fs : list Function) : keeps_named fs fs.
Proof. by intros i f Hi _. Qed.

Lemma keeps_named_trans (fs1 fs2 fs3 : list Function) :
  keeps_named fs1 fs2 → keeps_named fs2 fs3 → keeps_named fs1 fs3.
Proof. intros H12 H23 i f Hi Hd. apply H23; [by apply H12|done]. Qed.

Lemma keeps_named_insert (fs : list Function) (j : nat) (f f' : Function) :
  fs !! j = Some f → is_default_name f = true →
  keeps_named fs (<[j := f']> fs).
Proof.
  intros Hj Hd i g Hi Hg. destruct (decide (j = i)) as [->|Hne].
  - congruence.
  - by rewrite list_lookup_insert_ne.
Qed.

Lemma preserves_ret {A} (a : A) : preserves (ret a).
Proof. intros w. apply keeps_named_refl. Qed.

Lemma preserves_raise {A} (e : exn) : preserves (@raise A e).
Proof. intros w. apply keeps_named_refl. Qed.

Lemma preserves_lift {A} (r : result A) : preserves (lift r).
Proof. intros w. apply keeps_named_refl. Qed.

Lemma preserves_log (e : Event) : preserves (log e).
Proof. intros w. apply keeps_named_refl. Qed.

Lemma preserves_bind {A B} (m : M A) (k : A -> M B) :
  preserves m → (∀ a, preserves (k a)) → preserves (bind m k).
Proof.
  intros Hm Hk w. unfold bind. specialize (Hm w).
  destruct (m w) as [w' [a|e]]; simpl in *; [|done].
  eapply keeps_named_trans; [exact Hm|apply Hk].
Qed.

Lemma preserves_for_each {A} (l : list A) (body : A -> M unit) :
  (∀ x, preserves (body x)) → preserves (for_each l body).
Proof.
  intros Hb. induction l as [|x l IH]; simpl.
  - apply preserves_ret.
  - apply preserves_bind; [apply Hb|]. by intros _.
Qed.

Lemma preserves_with_open {A} (path : string) (body : bytes -> M A) :
  (∀ f, preserves (body f)) → preserves (FlirtAnalysis.with_open open_rb path body).
Proof.
  intros Hb w. unfold FlirtAnalysis.with_open.
  destruct (open_rb path) as [sigfile|e]; [|apply keeps_named_refl].
  specialize (Hb sigfile
    (mkWorld (functions w) (path :: open_files w) (trace w ++ [EvOpen path]))).
  simpl in Hb.
  destruct (body sigfile _) as [w2 r]. exact Hb.
Qed.

Lemma preserves_on_func_matched (func : nat) (base : Z) (ff : FlirtFunction) :
  preserves (on_func_matched func base ff).
Proof.
  intros w. unfold FlirtAnalysis._on_func_matched, bind, get_functions. simpl.
  destruct (if decide (base + offset ff ≠ base)
            then FlirtAnalysis.lookup_owner project (functions w) (base + offset ff)
            else Some func) as [j|]; [|apply keeps_named_refl].
  destruct (functions w !! j) as [f|] eqn:Hj; [|apply keeps_named_refl].
  destruct (is_default_name f) eqn:Hd; [|apply keeps_named_refl].
  simpl. by apply (keeps_named_insert _ j f).
Qed.

Lemma preserves_scan_function (flirt : FlirtFile) (i : nat) :
  preserves (scan_function flirt i).
Proof.
  intros w. unfold FlirtAnalysis.scan_function, bind at 1, get_functions.
  simpl. destruct (functions w !! i) as [func|]; [|apply keeps_named_refl].
  destruct (is_simprocedure func || is_plt func); [apply keeps_named_refl|].
  destruct (negb (is_default_name func)); [apply keeps_named_refl|].
  apply preserves_bind; [apply preserves_lift|]. intros [start end_].
  apply preserves_bind; [apply preserves_log|]. intros _.
  apply preserves_bind; [apply preserves_log|]. intros _.
  apply preserves_for_each. intros hit. apply preserves_on_func_matched.
Qed.

Lemma preserves_match_all (sig : FlirtSignature) : preserves (match_all sig).
Proof.
  apply preserves_with_open. intros sigfile.
  apply preserves_bind; [apply preserves_lift|]. intros flirt.
  intros w. unfold bind at 1, get_functions.
  apply preserves_for_each. intros i. apply preserves_scan_function.
Qed.

Lemma preserves_match_signatures (sigs : list FlirtSignature) :
  preserves (match_signatures sigs).
Proof. apply preserves_for_each. intros sig. apply preserves_match_all. Qed.

Lemma preserves_heuristic :
  preserves (FlirtAnalysis.heuristic_signatures memory_load project catalog).
Proof.
  unfold FlirtAnalysis.heuristic_signatures.
  destruct (bool_decide _); [apply preserves_raise|].
  apply preserves_bind.
  - unfold FlirtAnalysis.load_regions. apply preserves_bind.
    + apply preserves_for_each. intros seg. apply preserves_log.
    + intros _. apply preserves_ret.
  - intros regions. apply preserves_bind; [apply preserves_lift|].
    intros sigs. apply preserves_bind; [apply preserves_log|].
    intros _. apply preserves_ret.
Qed.

Lemma preserves_init (sig : SigArg) : preserves (init sig).
Proof.
  unfold FlirtAnalysis.__init__. apply preserves_bind.
  - destruct sig as [|path|s].
    + apply preserves_heuristic.
    + destruct (str_truthy path); [apply preserves_ret|apply preserves_heuristic].
    + apply preserves_ret.
  - intros [sigs|]; [apply preserves_match_signatures|apply preserves_raise].
Qed.

(** C4. A function that carries a name keeps all its attributes, name and
    provenance included, through a whole run, through the signatures of a
    run, through one signature, through the scan of one function and through
    one hit; this holds from whatever state the step starts in, so also for
    a name that an earlier signature or an earlier hit of the same run gave. *)
Theorem named_function_unchanged (w : World) (i : nat) (f : Function) :
  functions w !! i = Some f →
  is_default_name f = false →
  (∀ sig, functions (init sig w).1 !! i = Some f)
  ∧ (∀ sigs, functions (match_signatures sigs w).1 !! i = Some f)
  ∧ (∀ sig, functions (match_all sig w).1 !! i = Some f)
  ∧ (∀ flirt j, functions (scan_function flirt j w).1 !! i = Some f)
  ∧ (∀ func base ff, functions (on_func_matched func base ff w).1 !! i = Some f)
  ∧ (∀ sigs1 sigs2 w1 g,
       match_signatures sigs1 w = (w1, Ok tt) →
       functions w1 !! i = Some g →
       is_default_name g = false →
       functions (match_signatures (sigs1 ++ sigs2) w).1 !! i = Some g).
Proof.
  intros Hi Hd. repeat split.
  - intros sig. by apply (preserves_init sig w).
  - intros sigs. by apply (preserves_match_signatures sigs w).
  - intros sig. by apply (preserves_match_all sig w).
  - intros flirt j. by apply (preserves_scan_function flirt j w).
  - intros func base ff. by apply (preserves_on_func_matched func base ff w).
  - intros sigs1 sigs2 w1 g H1 Hg Hgd.
    unfold FlirtAnalysis.match_signatures in *.
    rewrite for_each_app, H1.
    by apply (preserves_match_signatures sigs2 w1).
Qed.

End RunFacts.

(** * Examples, witnesses and counterexamples for the run *)

Section RunExamples.

Import Examples.

Lemma blocks_le_1020 :
  ∀ a, a ∈ block_addrs_set func_1000 → a ≤ 0x1020.
Proof.
  intros a Ha. unfold block_addrs_set, func_1000 in Ha. simpl in Ha.
  apply elem_of_dom in Ha as [v Hv].
  rewrite !lookup_insert in Hv. repeat case_decide; simplify_map_eq; lia.
Defined.

Lemma scan_window_and_load_witness :
  FlirtAnalysis.scan_window x86_project func_1000 = Ok (0x1000, 0x1030)
  ∧ FlirtAnalysis.scan_function unit no_match no_memory x86_project tt 0
      (world_of [func_1000]) =
    (mkWorld [func_1000] [] [EvLoad 0x1000 0x130; EvMatch 0x1000 []], Ok tt).
Proof.
  destruct (scan_window_and_load no_match no_memory x86_project tt
              (world_of [func_1000]) 0 func_1000 0x1020 0x10
              eq_refl eq_refl eq_refl blocks_le_1020) as (H1 & H2 & _).
  split; [exact H1|]. rewrite H2. reflexivity.
Defined.

(** C2 as stated fails on ARM: the Thumb function at [0x1001] with last
    block [(0x1021, 0x10)] is scanned from [0x1000] to [0x1030]. *)
Lemma scan_window_thumb_counterexample :
  eligible thumb_func = true
  ∧ Py.max (block_addrs_set thumb_func) = Ok 0x1021
  ∧ get_block_size thumb_func 0x1021 = 0x10
  ∧ FlirtAnalysis.scan_window arm_project thumb_func = Ok (0x1000, 0x1030)
  ∧ FlirtAnalysis.scan_window arm_project thumb_func
      ≠ Ok (addr thumb_func, 0x1021 + 0x10).
Proof.
  assert (H : FlirtAnalysis.scan_window arm_project thumb_func
              = Ok (0x1000, 0x1030)) by (vm_compute; reflexivity).
  repeat split; try (vm_compute; reflexivity).
  rewrite H. intros E. inversion E.
Qed.

Lemma blocks_le_1021 :
  ∀ a, a ∈ block_addrs_set thumb_func → a ≤ 0x1021.
Proof.
  intros a Ha. unfold block_addrs_set, thumb_func in Ha. simpl in Ha.
  apply elem_of_dom in Ha as [v Hv].
  rewrite !lookup_insert in Hv. repeat case_decide; simplify_map_eq; lia.
Defined.

Lemma arm_window_mask_witness :
  FlirtAnalysis.scan_window arm_project thumb_func = Ok (0x1000, 0x1030)
  ∧ Z.land (addr thumb_func) 0xfffffffe = Z.clearbit (addr thumb_func) 0.
Proof.
  destruct (arm_window_mask no_match no_memory arm_project tt
              (world_of [thumb_func]) 0 thumb_func 0x1021 0x10
              eq_refl eq_refl eq_refl eq_refl blocks_le_1021)
    as (H1 & _ & _ & _ & _ & _ & H7 & _).
  split; [exact H1|]. apply H7. vm_compute. split; congruence.
Defined.

(** C7 as stated fails above the 32-bit range: for the function at
    [0x100000001] the window starts at [0], not at [0x100000000], so bit 32
    of the address is cleared as well. *)
Lemma arm_window_high_counterexample :
  is_arm_arch arm_project = true
  ∧ eligible high_func = true
  ∧ Py.max (block_addrs_set high_func) = Ok 0x100000001
  ∧ get_block_size high_func 0x100000001 = 0x10
  ∧ FlirtAnalysis.scan_window arm_project high_func = Ok (0, 0x10)
  ∧ Z.clearbit (addr high_func) 0 = 0x100000000
  ∧ Z.clearbit (0x100000001 + 0x10) 0 = 0x100000010
  ∧ FlirtAnalysis.scan_window arm_project high_func
      ≠ Ok (Z.clearbit (addr high_func) 0, Z.clearbit (0x100000001 + 0x10) 0)
  ∧ Z.testbit (addr high_func) 32 = true
  ∧ Z.testbit 0 32 = false.
Proof.
  assert (H : FlirtAnalysis.scan_window arm_project high_func = Ok (0, 0x10))
    by (vm_compute; reflexivity).
  repeat split; try (vm_compute; reflexivity).
  rewrite H. intros E. inversion E.
Qed.

Lemma init_with_signature_object_example :
  FlirtAnalysis.__init__ unit no_file parse_any match_two no_memory
    x86_project empty_catalog (SigObject (sig_of "x86" "a.sig"))
    (world_of [func_1000; plt_stub])
  = (world_of [func_1000; plt_stub], Raise AttributeError).
Proof. reflexivity. Qed.

Lemma empty_block_set_aborts_witness :
  FlirtAnalysis.match_signatures unit no_file parse_any no_match no_memory
    x86_project [sig_of "x86" "a.sig"; sig_of "x86" "b.sig"]
    (world_of [func_1000; blockless_func; func_1000])
  = (mkWorld [func_1000; blockless_func; func_1000] []
       [EvOpen "a.sig"; EvLoad 0x1000 0x130; EvMatch 0x1000 []; EvClose "a.sig"],
     Raise ValueError).
Proof.
  refine (proj2 (empty_block_set_aborts no_file parse_any no_match no_memory
            x86_project
            (world_of [func_1000; blockless_func; func_1000])
            (mkWorld [func_1000; blockless_func; func_1000] ["a.sig"%string]
               [EvOpen "a.sig"; EvLoad 0x1000 0x130; EvMatch 0x1000 []])
            (sig_of "x86" "a.sig") [sig_of "x86" "b.sig"] [] tt 1
            blockless_func eq_refl eq_refl _ _ eq_refl eq_refl _)).
  - simpl. lia.
  - vm_compute. reflexivity.
  - vm_compute. reflexivity.
Defined.

Lemma thumb_retry_symmetry_witness :
  name <$> (functions
              (FlirtAnalysis._on_func_matched arm_project 0 0x1000
                 (mkFlirtFunction 0x40 "memcpy")
                 (world_of [func_1000; thumb_helper])).1 !! 1%nat)
  = Some "memcpy"%string.
Proof.
  destruct (thumb_retry_symmetry arm_project
              (world_of [func_1000; thumb_helper]) 0 0x1000
              (mkFlirtFunction 0x40 "memcpy")) as [Harm _].
  - vm_compute. congruence.
  - vm_compute. reflexivity.
  - destruct (Harm eq_refl 1%nat) as (E & _).
    + vm_compute. reflexivity.
    + rewrite E. reflexivity.
Defined.

Lemma thumb_retry_not_on_x86 :
  FlirtAnalysis._on_func_matched x86_project 0 0x1000
    (mkFlirtFunction 0x40 "memcpy") (world_of [func_1000; thumb_helper])
  = (mkWorld [func_1000; thumb_helper] [] [EvWarning 0x1040], Ok tt).
Proof. vm_compute. reflexivity. Qed.

Lemma parse_failure_aborts_run_witness :
  run_bad_good
  = (mkWorld [func_1000] [] [EvOpen "bad.sig"; EvClose "bad.sig"],
     Raise FlirtParseError).
Proof.
  exact (parse_failure_aborts_run files_bad_good parse_nonzero no_match
           no_memory x86_project (world_of [func_1000]) (world_of [func_1000])
           [] [sig_of "x86" "good.sig"] (sig_of "x86" "bad.sig")
           [Byte.x00] FlirtParseError eq_refl eq_refl eq_refl).
Defined.

(** C6 as stated fails: after the parse failure of [bad.sig] the run ends
    with the error and [good.sig], which parses when run alone, is never
    opened. *)
Lemma parse_failure_counterexample :
  run_bad_good.2 = Raise FlirtParseError
  ∧ open_files run_bad_good.1 = []
  ∧ trace run_bad_good.1 = [EvOpen "bad.sig"; EvClose "bad.sig"]
  ∧ (EvOpen "good.sig" ∉ trace run_bad_good.1)
  ∧ FlirtAnalysis.match_signatures unit files_bad_good parse_nonzero no_match
      no_memory x86_project [sig_of "x86" "good.sig"] (world_of [func_1000])
    = (mkWorld [func_1000] []
         [EvOpen "good.sig"; EvLoad 0x1000 0x130; EvMatch 0x1000 [];
          EvClose "good.sig"], Ok tt).
Proof.
  repeat split; try (vm_compute; reflexivity).
  intros H. vm_compute in H.
  apply elem_of_cons in H as [H|H]; [discriminate|].
  apply elem_of_cons in H as [H|H]; [discriminate|].
  inversion H.
Qed.

Lemma named_function_unchanged_witness :
  functions
    (FlirtAnalysis.__init__ unit no_file parse_any match_two no_memory
       x86_project empty_catalog (SigStr "a.sig")
       (world_of [func_1000; named_func])).1 !! 1%nat
  = Some named_func.
Proof.
  exact (proj1 (named_function_unchanged no_file parse_any match_two no_memory
                  x86_project empty_catalog (world_of [func_1000; named_func])
                  1 named_func eq_refl eq_refl) (SigStr "a.sig")).
Defined.

(** C3 fails on the code: scanning the function at [0x1000], the matcher
    reports a second public function at offset [0x40]; the callback looks
    up its owner, the library stub at [0x1040] that still has a placeholder
    name, and renames it. *)
Lemma plt_stub_renamed :
  is_plt plt_stub = true
  ∧ is_default_name plt_stub = true
  ∧ run_over_stub.2 = Ok tt
  ∧ functions run_over_stub.1 !! 1%nat
    = Some (mkFunction 0x1040 {[ 0x1040 := 0x8 ]} false true false
              "inflate_fast" (Some "flirt"))
  ∧ name <$> (functions (world_of [func_1000; plt_stub]) !! 1%nat)
    = Some "sub_1040"%string
  ∧ name <$> (functions run_over_stub.1 !! 1%nat) = Some "inflate_fast"%string
  ∧ from_signature <$> (functions run_over_stub.1 !! 1%nat)
    = Some (Some "flirt"%string).
Proof. repeat split; vm_compute; reflexivity. Qed.

End RunExamples.

(** * Facts about the string heuristic *)

Section SelectorFacts.

Import Selector.

(** ** Containment of byte strings *)

Lemma startswith_spec (needle hay : bytes) :
  startswith hay needle = true ↔ ∃ post, hay = needle ++ post.
Proof.
  revert hay. induction needle as [|n needle IH]; intros hay; simpl.
  - split; [intros _; by exists hay|by destruct hay].
  - destruct hay as [|h hay]; simpl.
    + split; [done|]. intros [post H]. discriminate.
    + rewrite andb_true_iff, IH. unfold byte_eqb. split.
      * intros [Hb [post ->]]. apply Byte.byte_dec_bl in Hb as ->. by exists post.
      * intros [post H]. injection H as -> ->.
        split; [by apply Byte.byte_dec_lb|by exists post].
Qed.

Lemma bytes_in_cons (needle : bytes) (h : Byte.byte) (hay : bytes) :
  bytes_in needle (h :: hay) = startswith (h :: hay) needle || bytes_in needle hay.
Proof. reflexivity. Qed.

(** [needle in hay] holds exactly when [needle] occurs in [hay]. *)
Lemma bytes_in_spec (needle hay : bytes) :
  bytes_in needle hay = true ↔ contained needle hay.
Proof.
  unfold contained. induction hay as [|h hay IH].
  - destruct needle as [|n needle]; simpl.
    + split; [intros _; by exists [], []|done].
    + split; [done|]. intros (pre & post & H). by destruct pre.
  - rewrite bytes_in_cons, orb_true_iff, IH, startswith_spec. split.
    + intros [[post H]|(pre & post & H)].
      * exists [], post. done.
      * exists (h :: pre), post. by rewrite H.
    + intros (pre & post & H). destruct pre as [|p pre].
      * left. by exists post.
      * right. injection H as _ H. by exists pre, post.
Qed.

Lemma token_in_spec (s : string) (region : bytes) :
  token_in s region = true ↔
  ∃ needle, encode_ascii s = Ok needle ∧ contained needle region.
Proof.
  unfold token_in. destruct (encode_ascii s) as [needle|e].
  - rewrite bytes_in_spec. split; [intros H; by exists needle|].
    intros (needle' & E & H). by injection E as ->.
  - split; [done|]. intros (needle & E & _). discriminate.
Qed.

Lemma credits_pairb_spec (lib : string) (entry : string * gset string)
    (region : bytes) :
  credits_pairb lib (entry, region) = true ↔ credits_pair lib entry region.
Proof.
  unfold credits_pairb, credits_pair. simpl.
  by rewrite andb_true_iff, bool_decide_eq_true, token_in_spec.
Qed.

Lemma filter_length_pos {A} (f : A -> bool) (l : list A) :
  (0 < length (List.filter f l))%nat ↔ ∃ x, x ∈ l ∧ f x = true.
Proof.
  split.
  - destruct (List.filter f l) as [|x l'] eqn:E; simpl; [lia|]. intros _.
    assert (H : In x (List.filter f l)) by (rewrite E; by left).
    apply filter_In in H as [H1 H2]. exists x. by rewrite list_elem_of_In.
  - intros (x & Hx & Hf).
    assert (H : In x (List.filter f l)).
    { apply filter_In. by rewrite <- list_elem_of_In. }
    destruct (List.filter f l); [done|simpl; lia].
Qed.

(** A library has a hit exactly when some pair of a catalog entry and a
    buffer credits it. *)
Lemma pair_hits_pos (tokens : list (string * gset string))
    (regions : list bytes) (lib : string) :
  (0 < pair_hits tokens regions lib)%nat ↔
  ∃ entry region,
    entry ∈ tokens ∧ region ∈ regions ∧ credits_pair lib entry region.
Proof.
  unfold pair_hits. rewrite filter_length_pos. split.
  - intros ([entry region] & Hin & Hc).
    apply list_elem_of_In, in_prod_iff in Hin as [H1 H2].
    exists entry, region. rewrite !list_elem_of_In.
    by rewrite <- credits_pairb_spec.
  - intros (entry & region & H1 & H2 & Hc). exists (entry, region).
    rewrite list_elem_of_In, in_prod_iff, <- !list_elem_of_In.
    by rewrite credits_pairb_spec.
Qed.

(** ** The table of hits *)

Lemma hit_count_nil (lib : string) : hit_count [] lib = 0%nat.
Proof. reflexivity. Qed.

Lemma hit_count_cons (k : string) (n : nat) (h : hits) (lib : string) :
  hit_count ((k, n) :: h) lib = if decide (k = lib) then n else hit_count h lib.
Proof.
  unfold hit_count. simpl. destruct (decide (k = lib)); [done|].
  by destruct (list_find _ h) as [[i [k' n']]|].
Qed.

Lemma hit_count_incr (lib : string) (h : hits) (lib' : string) :
  hit_count (incr lib h) lib' =
  (hit_count h lib' + if decide (lib = lib') then 1 else 0)%nat.
Proof.
  induction h as [|[k n] h IH]; simpl.
  - rewrite hit_count_cons, hit_count_nil. by destruct (decide (lib = lib')).
  - destruct (decide (k = lib)) as [->|Hne]; rewrite !hit_count_cons.
    + destruct (decide (lib = lib')); lia.
    + rewrite IH. destruct (decide (k = lib')), (decide (lib = lib')); subst;
        try done; lia.
Qed.

Lemma hit_count_incr_list (l : list string) (h : hits) (lib' : string) :
  NoDup l →
  hit_count (foldl (λ acc lib, incr lib acc) h l) lib' =
  (hit_count h lib' + if decide (lib' ∈ l) then 1 else 0)%nat.
Proof.
  intros Hnd. revert h. induction Hnd as [|x l Hx Hnd IH]; intros h; simpl.
  - destruct (decide (lib' ∈ [])) as [H|_]; [inversion H|lia].
  - rewrite IH, hit_count_incr.
    destruct (decide (x = lib')) as [->|Hne].
    + destruct (decide (lib' ∈ l)); [done|].
      destruct (decide (lib' ∈ lib' :: l)) as [_|H]; [lia|].
      exfalso. apply H, list_elem_of_here.
    + destruct (decide (lib' ∈ l)) as [Hl|Hl].
      * destruct (decide (lib' ∈ x :: l)) as [_|H]; [lia|].
        exfalso. by apply H, list_elem_of_further.
      * destruct (decide (lib' ∈ x :: l)) as [H|_]; [|lia].
        apply elem_of_cons in H as [H|H]; congruence.
Qed.

(** Crediting the libraries of a token adds one hit to each of them. *)
Lemma hit_count_credit (libs : gset string) (h : hits) (lib' : string) :
  hit_count (credit libs h) lib' =
  (hit_count h lib' + if bool_decide (lib' ∈ libs) then 1 else 0)%nat.
Proof.
  unfold credit. rewrite hit_count_incr_list by apply NoDup_elements.
  f_equal. destruct (decide (lib' ∈ elements libs)) as [H|H];
    rewrite elem_of_elements in H.
  - by rewrite bool_decide_eq_true_2.
  - by rewrite bool_decide_eq_false_2.
Qed.

Lemma incr_keys (lib : string) (h : hits) :
  (incr lib h).*1 = if decide (lib ∈ h.*1) then h.*1 else h.*1 ++ [lib].
Proof.
  induction h as [|[k n] h IH]; cbn [incr].
  - rewrite decide_False; [done|]. by intros ?%elem_of_nil.
  - destruct (decide (k = lib)) as [->|Hne]; rewrite !fmap_cons; cbn [fst].
    + rewrite decide_True; [done|]. apply list_elem_of_here.
    + rewrite IH. destruct (decide (lib ∈ h.*1)) as [Hl|Hl].
      * rewrite decide_True; [done|]. by apply list_elem_of_further.
      * rewrite decide_False; [done|]. intros [?|?]%elem_of_cons; congruence.
Qed.

Lemma incr_positive (lib : string) (h : hits) :
  Forall (λ kv, (0 < kv.2)%nat) h →
  Forall (λ kv, (0 < kv.2)%nat) (incr lib h).
Proof.
  induction 1 as [|[k n] h Hk Hh IH]; simpl.
  - repeat constructor.
  - destruct (decide (k = lib)); constructor; simpl in *; try done; lia.
Qed.

Lemma incr_wf (lib : string) (h : hits) : hits_wf h → hits_wf (incr lib h).
Proof.
  intros [Hnd Hpos]. split; [|by apply incr_positive].
  rewrite incr_keys. destruct (decide (lib ∈ h.*1)) as [|Hl]; [done|].
  apply NoDup_app. split; [done|]. split; [|apply NoDup_singleton].
  intros x Hx [->|H]%elem_of_cons; [done|inversion H].
Qed.

Lemma credit_wf (libs : gset string) (h : hits) :
  hits_wf h → hits_wf (credit libs h).
Proof.
  unfold credit. revert h.
  induction (elements libs) as [|x l IH]; intros h Hh; simpl; [done|].
  by apply IH, incr_wf.
Qed.

(** In a well-formed table the keys are the libraries with a hit. *)
Lemma hits_wf_key (h : hits) (lib : string) :
  hits_wf h → (lib ∈ h.*1 ↔ (0 < hit_count h lib)%nat).
Proof.
  intros [_ Hpos]. induction Hpos as [|[k n] h Hk Hh IH]; simpl.
  - rewrite hit_count_nil. split; [intros H; inversion H|lia].
  - rewrite hit_count_cons, elem_of_cons.
    destruct (decide (k = lib)) as [->|Hne]; simpl in *.
    + split; [done|by left].
    + rewrite <- IH. split; [intros [?|?]; [congruence|done]|by right].
Qed.

End SelectorFacts.

(** ** Sorting *)

Section SortedFacts.

Context {A : Type} (key : A -> nat).

Lemma insert_desc_perm (x : A) (l : list A) : insert_desc key x l ≡ₚ x :: l.
Proof.
  induction l as [|y l IH]; simpl; [done|].
  destruct (key y <=? key x)%nat; [done|]. rewrite IH. apply Permutation_swap.
Qed.

Lemma sorted_desc_perm (l : list A) : sorted_desc key l ≡ₚ l.
Proof.
  induction l as [|x l IH]; simpl; [done|].
  by rewrite insert_desc_perm, IH.
Qed.

Lemma insert_desc_descending (x : A) (l : list A) :
  descending key l → descending key (insert_desc key x l).
Proof.
  unfold descending. induction 1 as [|y l Hs IH Hy]; simpl.
  - by repeat constructor.
  - destruct (Nat.leb_spec (key y) (key x)).
    + constructor; [by constructor|]. constructor; [done|].
      eapply Forall_impl; [exact Hy|]. simpl. intros z Hz. lia.
    + constructor; [done|]. rewrite (insert_desc_perm x l).
      constructor; [lia|done].
Qed.

Lemma sorted_desc_descending (l : list A) : descending key (sorted_desc key l).
Proof.
  induction l as [|x l IH]; simpl; [constructor|].
  by apply insert_desc_descending.
Qed.

Lemma insert_desc_filter (x : A) (l : list A) (k : nat) :
  List.filter (λ a, key a =? k)%nat (insert_desc key x l) =
  List.filter (λ a, key a =? k)%nat (x :: l).
Proof.
  induction l as [|y l IH]; [done|]. cbn [insert_desc].
  destruct (Nat.leb_spec (key y) (key x)); [done|].
  cbn [List.filter]. rewrite IH. cbn [List.filter].
  destruct (Nat.eqb_spec (key y) k), (Nat.eqb_spec (key x) k); try done. lia.
Qed.

Lemma sorted_desc_filter (l : list A) (k : nat) :
  List.filter (λ a, key a =? k)%nat (sorted_desc key l) =
  List.filter (λ a, key a =? k)%nat l.
Proof.
  induction l as [|x l IH]; [done|]. cbn [sorted_desc foldr].
  rewrite insert_desc_filter. cbn [List.filter].
  change (foldr (insert_desc key) [] l) with (sorted_desc key l).
  by rewrite IH.
Qed.

Lemma descending_ext (key' : A -> nat) (l : list A) :
  (∀ a, key a = key' a) → descending key l → descending key' l.
Proof.
  intros E. unfold descending. induction 1 as [|y l Hs IH Hy]; constructor.
  - done.
  - eapply Forall_impl; [exact Hy|]. simpl. intros z. by rewrite !E.
Qed.

End SortedFacts.

Section SelectorRun.

Import Selector.

Lemma NoDup_only {A} (l : list A) (a : A) :
  NoDup l → (∀ x, x ∈ l ↔ x = a) → l = [a].
Proof.
  intros Hnd H. destruct l as [|x [|y l]].
  - exfalso. by apply (elem_of_nil a), H.
  - f_equal. apply H, list_elem_of_here.
  - exfalso. apply NoDup_cons in Hnd as [Hx _]. apply Hx.
    assert (x = a) as -> by apply H, list_elem_of_here.
    assert (y = a) as -> by (apply H, list_elem_of_further, list_elem_of_here).
    apply list_elem_of_here.
Qed.

Lemma credits_pairb_encoded (lib s : string) (libs : gset string)
    (needle region : bytes) :
  encode_ascii s = Ok needle →
  credits_pairb lib ((s, libs), region) =
  bool_decide (lib ∈ libs) && bytes_in needle region.
Proof. intros E. unfold credits_pairb, token_in. simpl. by rewrite E. Qed.

(** The loop over the buffers for one token. *)
Lemma scan_regions_ok (s : string) (libs : gset string) (needle : bytes)
    (regions : list bytes) (h : hits) :
  encode_ascii s = Ok needle →
  ∃ h', scan_regions s libs regions h = Ok h'
    ∧ (hits_wf h → hits_wf h')
    ∧ ∀ lib, hit_count h' lib =
        (hit_count h lib +
         length (List.filter (credits_pairb lib)
                   (map (λ r, ((s, libs), r)) regions)))%nat.
Proof.
  intros E. revert h. induction regions as [|r regions IH]; intros h.
  - exists h. split; [done|]. split; [done|]. intros lib. simpl. lia.
  - cbn [scan_regions]. rewrite E.
    destruct (IH (if bytes_in needle r then credit libs h else h))
      as (h' & E' & Hwf & Hc).
    exists h'. split; [done|]. split.
    + intros Hh. apply Hwf. destruct (bytes_in needle r); [by apply credit_wf|done].
    + intros lib. rewrite Hc. cbn [map List.filter].
      rewrite (credits_pairb_encoded lib s libs needle r E).
      destruct (bytes_in needle r).
      * rewrite hit_count_credit, andb_true_r.
        destruct (bool_decide (lib ∈ libs)); simpl; lia.
      * rewrite andb_false_r. lia.
Qed.

(** The loop over the tokens: when every token can be encoded, the table
    holds for every library the number of pairs that credit it. *)
Lemma scan_tokens_ok (tokens : list (string * gset string))
    (regions : list bytes) (h : hits) :
  Forall (λ entry, ∃ needle, encode_ascii entry.1 = Ok needle) tokens →
  ∃ h', scan_tokens tokens regions h = Ok h'
    ∧ (hits_wf h → hits_wf h')
    ∧ ∀ lib, hit_count h' lib = (hit_count h lib + pair_hits tokens regions lib)%nat.
Proof.
  intros Henc. revert h.
  induction Henc as [|[s libs] tokens [needle E] Henc IH]; intros h.
  - exists h. split; [done|]. split; [done|]. intros lib.
    unfold pair_hits. simpl. lia.
  - cbn [scan_tokens].
    destruct (scan_regions_ok s libs needle regions h E) as (h1 & E1 & Hwf1 & Hc1).
    rewrite E1. destruct (IH h1) as (h' & E' & Hwf' & Hc').
    exists h'. split; [done|]. split; [by intros ?; apply Hwf', Hwf1|].
    intros lib. rewrite Hc', Hc1. unfold pair_hits. cbn [list_prod].
    rewrite List.filter_app, length_app. lia.
Qed.

Lemma hits_wf_nil : hits_wf [].
Proof. split; constructor. Qed.

(** The ranking of a well-formed table: every library with a hit once, in
    descending order of the hits, libraries with equal hits in the order of
    the table. *)
Lemma sorted_libraries_ranked (h : hits) :
  hits_wf h →
  NoDup (sorted_libraries h)
  ∧ (∀ lib, lib ∈ sorted_libraries h ↔ (0 < hit_count h lib)%nat)
  ∧ descending (hit_count h) (sorted_libraries h).
Proof.
  intros Hwf. unfold sorted_libraries. split; [|split].
  - rewrite sorted_desc_perm. apply Hwf.
  - intros lib. rewrite sorted_desc_perm. by apply hits_wf_key.
  - apply sorted_desc_descending.
Qed.

Lemma elem_of_yield_signatures (cat : Catalog) (a : string)
    (libs : list string) (sig : FlirtSignature) :
  sig ∈ yield_signatures cat a libs ↔
  ∃ lib, lib ∈ libs ∧ sig ∈ library_signatures cat lib ∧ arch sig = a.
Proof.
  unfold yield_signatures. rewrite list_elem_of_In, in_flat_map. split.
  - intros (lib & Hl & Hs). apply filter_In in Hs as [Hs Ha].
    apply bool_decide_eq_true in Ha. exists lib. by rewrite !list_elem_of_In.
  - intros (lib & Hl & Hs & Ha). exists lib. rewrite filter_In.
    rewrite <- !list_elem_of_In. by rewrite bool_decide_eq_true.
Qed.

Lemma lower_char_idemp (c : ascii) : lower_char (lower_char c) = lower_char c.
Proof.
  unfold lower_char.
  destruct ((65 <=? nat_of_ascii c) && (nat_of_ascii c <=? 90))%nat eqn:E.
  - apply andb_prop in E as [E1 E2].
    apply Nat.leb_le in E1. apply Nat.leb_le in E2.
    rewrite nat_ascii_embedding by lia.
    replace (nat_of_ascii c + 32 <=? 90)%nat with false; [by rewrite andb_false_r|].
    symmetry. apply Nat.leb_gt. lia.
  - by rewrite E.
Qed.

Lemma lower_idemp (s : string) : lower (lower s) = lower s.
Proof. induction s as [|c s IH]; simpl; [done|]. by rewrite lower_char_idemp, IH. Qed.

Lemma find_hits_unfold (cat : Catalog) (arch_name : string)
    (regions : list bytes) (h : hits) :
  scan_tokens (STRING_TO_LIBRARIES cat) regions [] = Ok h →
  _find_hits_by_strings cat arch_name regions =
    Ok (yield_signatures cat (lower arch_name) (sorted_libraries h)).
Proof. intros E. unfold _find_hits_by_strings. by rewrite E. Qed.

End SelectorRun.

(** ** The selector *)

Section SelectorClaims.

Import Selector.

(** C1 (amended). The claim holds for the catalogs whose tokens can all be
    encoded in ASCII; for another catalog the selector raises
    [UnicodeEncodeError] as soon as it has a buffer to search. When every
    token of the catalog can be encoded in ASCII, the selector returns. Its
    table [library_hits] holds, for every library, the number of pairs
    (token, buffer) such that the library belongs to the token and the
    encoded token occurs in the buffer. The ranking holds every library
    with at least one hit exactly once, in descending order of the hits.
    The result is, library by library in the order of the ranking, the
    signatures of the library whose [arch] is the lower-cased name of the
    target, in the order of the catalog; so a signature is in the result
    only through a library with a hit. When the only token that occurs in a
    buffer is ["inflate 1.2.11"], mapped to ["zlib"], and the target is
    ["x86"], the result is the list of the [x86] signatures of ["zlib"] in
    the order of the catalog. *)
Theorem heuristic_selector (cat : Catalog) (arch_name : string)
    (regions : list bytes) :
  let tokens := STRING_TO_LIBRARIES cat in
  let count := pair_hits tokens regions in
  Forall (λ entry, ∃ needle, encode_ascii entry.1 = Ok needle) tokens →
  ∃ library_hits,
    scan_tokens tokens regions [] = Ok library_hits
    ∧ (∀ lib, hit_count library_hits lib = count lib)
    ∧ (∀ lib, (0 < count lib)%nat ↔
         ∃ entry region,
           entry ∈ tokens ∧ region ∈ regions ∧ credits_pair lib entry region)
    ∧ NoDup (sorted_libraries library_hits)
    ∧ (∀ lib, lib ∈ sorted_libraries library_hits ↔ (0 < count lib)%nat)
    ∧ descending count (sorted_libraries library_hits)
    ∧ _find_hits_by_strings cat arch_name regions =
        Ok (flat_map
              (λ lib, List.filter (λ sig, bool_decide (arch sig = lower arch_name))
                        (library_signatures cat lib))
              (sorted_libraries library_hits))
    ∧ (∀ sigs sig,
         _find_hits_by_strings cat arch_name regions = Ok sigs →
         sig ∈ sigs →
         ∃ lib, (0 < count lib)%nat ∧ sig ∈ library_signatures cat lib
                ∧ arch sig = lower arch_name)
    ∧ (∀ needle region,
         encode_ascii "inflate 1.2.11" = Ok needle →
         ("inflate 1.2.11"%string, ({[ "zlib"%string ]} : gset string)) ∈ tokens →
         region ∈ regions →
         contained needle region →
         (∀ entry r, entry ∈ tokens → r ∈ regions → token_in entry.1 r = true →
            entry = ("inflate 1.2.11"%string, {[ "zlib"%string ]})) →
         lower arch_name = "x86"%string →
         _find_hits_by_strings cat arch_name regions =
           Ok (List.filter (λ sig, bool_decide (arch sig = "x86"%string))
                 (library_signatures cat "zlib"))).
Proof.
  intros tokens count Henc.
  destruct (scan_tokens_ok tokens regions [] Henc) as (h & Eh & Hwf & Hc).
  specialize (Hwf hits_wf_nil).
  assert (Hc' : ∀ lib, hit_count h lib = count lib).
  { intros lib. rewrite Hc, hit_count_nil. done. }
  destruct (sorted_libraries_ranked h Hwf) as (Hnd & Hin & Hdesc).
  assert (Hin' : ∀ lib, lib ∈ sorted_libraries h ↔ (0 < count lib)%nat).
  { intros lib. by rewrite Hin, Hc'. }
  assert (Hfind := find_hits_unfold cat arch_name regions h Eh).
  exists h. split; [exact Eh|]. split; [exact Hc'|].
  split; [intros lib; apply pair_hits_pos|].
  split; [exact Hnd|]. split; [exact Hin'|].
  split; [by apply (descending_ext (hit_count h))|].
  split; [exact Hfind|]. split.
  - intros sigs sig E Hs. rewrite Hfind in E. injection E as <-.
    apply elem_of_yield_signatures in Hs as (lib & Hl & Hs & Ha).
    exists lib. by rewrite <- Hin'.
  - intros needle region En Hentry Hregion Hcont Honly Harch.
    rewrite Hfind, Harch.
    assert (Hz : sorted_libraries h = ["zlib"%string]).
    { apply NoDup_only; [exact Hnd|]. intros lib.
      rewrite Hin'. unfold count. rewrite pair_hits_pos. split.
      - intros (entry & r & He & Hr & Hl & Htok).
        apply token_in_spec in Htok.
        rewrite (Honly entry r He Hr Htok) in Hl. simpl in Hl.
        by apply elem_of_singleton in Hl.
      - intros ->. exists ("inflate 1.2.11"%string, {[ "zlib"%string ]}), region.
        split; [done|]. split; [done|]. split.
        + simpl. by apply elem_of_singleton.
        + by exists needle. }
    rewrite Hz. unfold yield_signatures. simpl. by rewrite app_nil_r.
Qed.

(** C5 (amended). For every library of the ranking, a signature of the
    library is in the result if and only if its stored [arch] string is
    equal, character by character, to the lower-cased name of the target;
    the stored string is not converted. Hence the filter compares without
    regard to case exactly for the signatures whose [arch] is stored in
    lower case. *)
Theorem arch_filter_exact (cat : Catalog) (arch_name : string)
    (regions : list bytes) (library_hits : hits) :
  scan_tokens (STRING_TO_LIBRARIES cat) regions [] = Ok library_hits →
  ∃ sigs,
    _find_hits_by_strings cat arch_name regions = Ok sigs
    ∧ (∀ lib sig,
         lib ∈ sorted_libraries library_hits →
         sig ∈ library_signatures cat lib →
         (sig ∈ sigs ↔ arch sig = lower arch_name))
    ∧ (∀ lib sig,
         lib ∈ sorted_libraries library_hits →
         sig ∈ library_signatures cat lib →
         arch sig = lower (arch sig) →
         (sig ∈ sigs ↔ lower (arch sig) = lower arch_name)).
Proof.
  intros Eh. rewrite (find_hits_unfold cat arch_name regions _ Eh).
  eexists. split; [reflexivity|].
  assert (H : ∀ lib sig,
            lib ∈ sorted_libraries library_hits →
            sig ∈ library_signatures cat lib →
            (sig ∈ yield_signatures cat (lower arch_name)
                     (sorted_libraries library_hits)
             ↔ arch sig = lower arch_name)).
  { intros lib sig Hl Hs. rewrite elem_of_yield_signatures. split.
    - by intros (lib' & _ & _ & Ha).
    - intros Ha. by exists lib. }
  split; [exact H|].
  intros lib sig Hl Hs Hlow. rewrite (H lib sig Hl Hs). by rewrite <- Hlow.
Qed.

End SelectorClaims.

(** ** Examples for the selector *)

Section SelectorExamples.

Import Selector Examples.

Lemma zlib_tokens_encodable :
  Forall (λ entry : string * gset string,
            ∃ needle, encode_ascii entry.1 = Ok needle)
    (STRING_TO_LIBRARIES zlib_catalog).
Proof. repeat constructor; eexists; reflexivity. Defined.

Lemma zlib_region_contains :
  contained (ascii_bytes "inflate 1.2.11") zlib_region.
Proof.
  exists (ascii_bytes " "), (ascii_bytes " Copyright 1995-2017 Mark Adler ").
  reflexivity.
Defined.

Lemma zlib_only_token (entry : string * gset string) (r : bytes) :
  entry ∈ STRING_TO_LIBRARIES zlib_catalog → r ∈ [zlib_region] →
  token_in entry.1 r = true → entry = zlib_entry.
Proof.
  intros He Hr Ht. apply list_elem_of_singleton in Hr as ->.
  apply elem_of_cons in He as [->|He]; [done|].
  apply list_elem_of_singleton in He as ->. vm_compute in Ht. discriminate.
Defined.

Lemma heuristic_selector_witness :
  _find_hits_by_strings zlib_catalog "X86" [zlib_region]
  = Ok [zlib_x86; zlib_x86_static].
Proof.
  destruct (heuristic_selector zlib_catalog "X86" [zlib_region]
              zlib_tokens_encodable) as (h & _ & _ & _ & _ & _ & _ & _ & _ & H).
  rewrite (H (ascii_bytes "inflate 1.2.11") zlib_region eq_refl).
  - reflexivity.
  - apply list_elem_of_here.
  - apply list_elem_of_here.
  - exact zlib_region_contains.
  - exact zlib_only_token.
  - reflexivity.
Defined.

(** C1 as stated fails for a catalog with a token outside ASCII: the
    token of zlib occurs in the buffer and the target is ["x86"], yet the
    selector does not return the [x86] signatures of zlib, it raises
    [UnicodeEncodeError] when it encodes the other token. *)
Lemma heuristic_selector_counterexample :
  STRING_TO_LIBRARIES latin_catalog = [zlib_entry; latin_entry]
  ∧ token_in zlib_entry.1 zlib_region = true
  ∧ encode_ascii latin_entry.1 = Raise UnicodeEncodeError
  ∧ List.filter (λ sig, bool_decide (arch sig = "x86"%string))
      (library_signatures latin_catalog "zlib") = [zlib_x86; zlib_x86_static]
  ∧ _find_hits_by_strings latin_catalog "x86" [zlib_region]
    = Raise UnicodeEncodeError
  ∧ _find_hits_by_strings latin_catalog "x86" [zlib_region]
    ≠ Ok [zlib_x86; zlib_x86_static].
Proof.
  assert (H : _find_hits_by_strings latin_catalog "x86" [zlib_region]
              = Raise UnicodeEncodeError) by (vm_compute; reflexivity).
  repeat split; try (vm_compute; reflexivity).
  rewrite H. discriminate.
Qed.

Lemma arch_filter_exact_witness :
  ∃ sigs,
    _find_hits_by_strings zlib_catalog "X86" [zlib_region] = Ok sigs
    ∧ zlib_x86 ∈ sigs ∧ zlib_armel ∉ sigs.
Proof.
  destruct (arch_filter_exact zlib_catalog "X86" [zlib_region]
              [("zlib"%string, 1%nat)] eq_refl) as (sigs & E & H & _).
  exists sigs. split; [exact E|]. split.
  - apply (H "zlib"%string); [apply list_elem_of_here|apply list_elem_of_here|].
    reflexivity.
  - rewrite (H "zlib"%string);
      [discriminate|apply list_elem_of_here|].
    apply list_elem_of_further, list_elem_of_here.
Defined.

(** C5 as stated fails: the signature of zlib whose architecture is stored
    as ["X86"] differs from the target ["x86"] only in the case of a letter,
    its library is ranked, and it is not selected. *)
Lemma arch_filter_case_counterexample :
  scan_tokens (STRING_TO_LIBRARIES upper_catalog) [zlib_region] []
    = Ok [("zlib"%string, 1%nat)]
  ∧ sorted_libraries [("zlib"%string, 1%nat)] = ["zlib"%string]
  ∧ library_signatures upper_catalog "zlib" = [zlib_upper]
  ∧ lower (arch zlib_upper) = lower "x86"
  ∧ arch zlib_upper ≠ "x86"%string
  ∧ _find_hits_by_strings upper_catalog "x86" [zlib_region] = Ok [].
Proof. repeat split; try reflexivity. discriminate. Qed.

End SelectorExamples.

(** * Further facts about a run *)

Section RunInvariants.

Context {FlirtFile : Type}.
Context (open_rb : string -> result bytes).
Context (parse_flirt_file : bytes -> result FlirtFile).
Context (match_function : FlirtFile -> bytes -> Z -> list (Z * FlirtFunction)).
Context (memory_load : Z -> Z -> bytes).
Context (project : Project) (catalog : Catalog).

Local Abbreviation on_func_matched := (FlirtAnalysis._on_func_matched project).
Local Abbreviation scan_function :=
  (FlirtAnalysis.scan_function FlirtFile match_function memory_load project).
Local Abbreviation match_all :=
  (FlirtAnalysis._match_all_against_one_signature FlirtFile open_rb
     parse_flirt_file match_function memory_load project).
Local Abbreviation match_signatures :=
  (FlirtAnalysis.match_signatures FlirtFile open_rb parse_flirt_file
     match_function memory_load project).
Local Abbreviation init :=
  (FlirtAnalysis.__init__ FlirtFile open_rb parse_flirt_file match_function
     memory_load project catalog).

Lemma named_by_flirt_trans (f1 f2 f3 : Function) :
  named_by_flirt f1 f2 → named_by_flirt f2 f3 → named_by_flirt f1 f3.
Proof.
  intros [->|(H1 & H2 & H3 & H4)] [->|(G1 & G2 & G3 & G4)].
  - by left.
  - right. done.
  - right. done.
  - congruence.
Qed.

Lemma evolves_refl (fs : list Function) : evolves fs fs.
Proof. induction fs; constructor; [by left|done]. Qed.

Lemma evolves_trans (fs1 fs2 fs3 : list Function) :
  evolves fs1 fs2 → evolves fs2 fs3 → evolves fs1 fs3.
Proof.
  intros H. revert fs3. induction H as [|f1 f2 fs1 fs2 Hf H IH]; intros fs3 H'.
  - inversion H'. constructor.
  - inversion H' as [|? f3 ? fs3' Hf' H'']; subst. constructor.
    + by apply (named_by_flirt_trans f1 f2 f3).
    + by apply IH.
Qed.

Lemma evolves_rename (fs : list Function) (j : nat) (f : Function)
    (ff : FlirtFunction) :
  fs !! j = Some f → is_default_name f = true →
  evolves fs (<[j := FlirtAnalysis.rename f ff]> fs).
Proof.
  intros Hj Hd. unfold evolves.
  rewrite <- (list_insert_id fs j f Hj) at 1.
  apply Forall2_insert; [apply evolves_refl|]. right. done.
Qed.

Lemma run_rel_refl (w : World) : run_rel w w.
Proof. split; [apply evolves_refl|done]. Qed.

Lemma run_rel_trans (w1 w2 w3 : World) :
  run_rel w1 w2 → run_rel w2 w3 → run_rel w1 w3.
Proof.
  intros [H1 H2] [G1 G2]. split; [by apply (evolves_trans _ (functions w2))|].
  congruence.
Qed.

Lemma respects_ret {A} (a : A) : respects (ret a).
Proof. intros w. apply run_rel_refl. Qed.

Lemma respects_raise {A} (e : exn) : respects (@raise A e).
Proof. intros w. apply run_rel_refl. Qed.

Lemma respects_lift {A} (r : result A) : respects (lift r).
Proof. intros w. apply run_rel_refl. Qed.

Lemma respects_log (e : Event) : respects (log e).
Proof. intros w. split; [apply evolves_refl|done]. Qed.

Lemma respects_bind {A B} (m : M A) (k : A -> M B) :
  respects m → (∀ a, respects (k a)) → respects (bind m k).
Proof.
  intros Hm Hk w. unfold bind. specialize (Hm w).
  destruct (m w) as [w' [a|e]]; simpl in *; [|done].
  eapply run_rel_trans; [exact Hm|apply Hk].
Qed.

Lemma respects_for_each {A} (l : list A) (body : A -> M unit) :
  (∀ x, respects (body x)) → respects (for_each l body).
Proof.
  intros Hb. induction l as [|x l IH]; simpl.
  - apply respects_ret.
  - apply respects_bind; [apply Hb|]. by intros _.
Qed.

(** The file opened by [with] is closed again on every path out of the
    block. *)
Lemma respects_with_open {A} (path : string) (body : bytes -> M A) :
  (∀ f, respects (body f)) → respects (FlirtAnalysis.with_open open_rb path body).
Proof.
  intros Hb w. unfold FlirtAnalysis.with_open.
  destruct (open_rb path) as [sigfile|e]; [|apply run_rel_refl].
  specialize (Hb sigfile
    (mkWorld (functions w) (path :: open_files w) (trace w ++ [EvOpen path]))).
  destruct (body sigfile _) as [w2 r]. destruct Hb as [H1 H2]. simpl in *.
  split; simpl; [done|]. rewrite H2. simpl. by destruct (decide (path = path)).
Qed.

Lemma respects_on_func_matched (func : nat) (base : Z) (ff : FlirtFunction) :
  respects (on_func_matched func base ff).
Proof.
  intros w. unfold FlirtAnalysis._on_func_matched, bind, get_functions. simpl.
  destruct (if decide (base + offset ff ≠ base)
            then FlirtAnalysis.lookup_owner project (functions w) (base + offset ff)
            else Some func) as [j|]; [|apply (respects_log _ w)].
  destruct (functions w !! j) as [f|] eqn:Hj; [|apply run_rel_refl].
  destruct (is_default_name f) eqn:Hd; [|apply run_rel_refl].
  split; simpl; [|done]. by apply evolves_rename.
Qed.

Lemma respects_scan_function (flirt : FlirtFile) (i : nat) :
  respects (scan_function flirt i).
Proof.
  intros w. unfold FlirtAnalysis.scan_function, bind at 1, get_functions.
  simpl. destruct (functions w !! i) as [func|]; [|apply run_rel_refl].
  destruct (is_simprocedure func || is_plt func); [apply run_rel_refl|].
  destruct (negb (is_default_name func)); [apply run_rel_refl|].
  apply respects_bind; [apply respects_lift|]. intros [start end_].
  apply respects_bind; [apply respects_log|]. intros _.
  apply respects_bind; [apply respects_log|]. intros _.
  apply respects_for_each. intros hit. apply respects_on_func_matched.
Qed.

Lemma respects_match_all (sig : FlirtSignature) : respects (match_all sig).
Proof.
  apply respects_with_open. intros sigfile.
  apply respects_bind; [apply respects_lift|]. intros flirt.
  intros w. unfold bind at 1, get_functions.
  apply respects_for_each. intros i. apply respects_scan_function.
Qed.

Lemma respects_match_signatures (sigs : list FlirtSignature) :
  respects (match_signatures sigs).
Proof. apply respects_for_each. intros sig. apply respects_match_all. Qed.

Lemma respects_heuristic :
  respects (FlirtAnalysis.heuristic_signatures memory_load project catalog).
Proof.
  unfold FlirtAnalysis.heuristic_signatures.
  destruct (bool_decide _); [apply respects_raise|].
  apply respects_bind.
  - unfold FlirtAnalysis.load_regions. apply respects_bind.
    + apply respects_for_each. intros seg. apply respects_log.
    + intros _. apply respects_ret.
  - intros regions. apply respects_bind; [apply respects_lift|].
    intros sigs. apply respects_bind; [apply respects_log|].
    intros _. apply respects_ret.
Qed.

Lemma respects_init (sig : SigArg) : respects (init sig).
Proof.
  unfold FlirtAnalysis.__init__. apply respects_bind.
  - destruct sig as [|path|s].
    + apply respects_heuristic.
    + destruct (str_truthy path); [apply respects_ret|apply respects_heuristic].
    + apply respects_ret.
  - intros [sigs|]; [apply respects_match_signatures|apply respects_raise].
Qed.

(** Whatever the outcome of a run, a normal end or an exception from
    [open], the parser, [max] or the encoder, the files that are open
    after it are those that were open before it: every signature file that
    was opened has been closed. *)
Theorem run_leaves_no_file_open (sig : SigArg) (sigs : list FlirtSignature)
    (s : FlirtSignature) (w : World) :
  open_files (init sig w).1 = open_files w
  ∧ open_files (match_signatures sigs w).1 = open_files w
  ∧ open_files (match_all s w).1 = open_files w.
Proof.
  split; [apply (respects_init sig w)|].
  split; [apply (respects_match_signatures sigs w)|apply (respects_match_all s w)].
Qed.

(** A run neither adds nor removes functions, and it never changes the
    address, the blocks, or the kind (simulated procedure, library stub) of
    a function. *)
Theorem run_keeps_frame (sig : SigArg) (w : World) :
  length (functions (init sig w).1) = length (functions w)
  ∧ ∀ i f, functions w !! i = Some f →
      ∃ f', functions (init sig w).1 !! i = Some f'
            ∧ addr f' = addr f ∧ blocks f' = blocks f
            ∧ is_simprocedure f' = is_simprocedure f ∧ is_plt f' = is_plt f.
Proof.
  destruct (respects_init sig w) as [H _]. split.
  - symmetry. by eapply Forall2_length.
  - intros i f Hi.
    destruct (Forall2_lookup_l _ _ _ _ _ H Hi) as (f' & Hi' & Hf).
    exists f'. split; [done|].
    destruct Hf as [->|(_ & _ & _ & Hfr)]; [done|].
    unfold frame in Hfr. by injection Hfr as -> -> -> ->.
Qed.

(** A function object that differs after the run from what it was before
    had a placeholder name, and afterwards it has a name that is no
    placeholder, with the provenance ["flirt"]. *)
Theorem run_changes_only_by_naming (sig : SigArg) (w : World) (i : nat)
    (f f' : Function) :
  functions w !! i = Some f →
  functions (init sig w).1 !! i = Some f' →
  f' ≠ f →
  is_default_name f = true
  ∧ is_default_name f' = false
  ∧ from_signature f' = Some "flirt"%string.
Proof.
  intros Hi Hi' Hne. destruct (respects_init sig w) as [H _].
  destruct (Forall2_lookup_lr _ _ _ _ _ _ H Hi Hi') as [->|(H1 & H2 & H3 & _)];
    done.
Qed.

End RunInvariants.

(** * Further facts about the callback and the loop body *)

Section CallbackFacts.

Context {FlirtFile : Type}.
Context (match_function : FlirtFile -> bytes -> Z -> list (Z * FlirtFunction)).
Context (memory_load : Z -> Z -> bytes).
Context (project : Project).

Local Abbreviation on_func_matched := (FlirtAnalysis._on_func_matched project).
Local Abbreviation lookup_owner := (FlirtAnalysis.lookup_owner project).
Local Abbreviation scan_window := (FlirtAnalysis.scan_window project).
Local Abbreviation scan_function :=
  (FlirtAnalysis.scan_function FlirtFile match_function memory_load project).

Lemma on_func_matched_at_base (w : World) (func : nat) (base : Z)
    (ff : FlirtFunction) (f : Function) :
  offset ff = 0 →
  functions w !! func = Some f →
  on_func_matched func base ff w =
    if is_default_name f
    then (mkWorld (<[func := FlirtAnalysis.rename f ff]> (functions w))
            (open_files w)
            (trace w ++ [EvDebugIdentified (ff_name ff) base base 0]),
          Ok tt)
    else (w, Ok tt).
Proof.
  intros Hoff Hf.
  unfold FlirtAnalysis._on_func_matched, bind, get_functions. simpl.
  rewrite Hoff, Z.add_0_r.
  destruct (decide (base ≠ base)) as [Hne|_]; [done|].
  rewrite Hf. by destruct (is_default_name f).
Qed.

(** A hit at offset 0 names the function that is being scanned, whatever
    the function manager holds at the base address: no lookup is made and
    no warning is logged. *)
Theorem hit_at_base_names_scanned_function (w : World) (func : nat)
    (base : Z) (ff : FlirtFunction) (f : Function) :
  offset ff = 0 →
  functions w !! func = Some f →
  on_func_matched func base ff w =
    if is_default_name f
    then (mkWorld (<[func := FlirtAnalysis.rename f ff]> (functions w))
            (open_files w)
            (trace w ++ [EvDebugIdentified (ff_name ff) base base 0]),
          Ok tt)
    else (w, Ok tt).
Proof. exact (on_func_matched_at_base w func base ff f). Qed.

(** A hit off the base whose owner is found neither at its address nor, on
    ARM, one byte further is dropped: a warning with the address of the hit
    is logged, nothing else changes and no exception is raised. *)
Theorem unresolved_hit_only_warns (w : World) (func : nat) (base : Z)
    (ff : FlirtFunction) :
  base + offset ff ≠ base →
  FlirtAnalysis.get_by_addr (functions w) (base + offset ff) = None →
  (is_arm_arch project = true →
   FlirtAnalysis.get_by_addr (functions w) (base + offset ff + 1) = None) →
  on_func_matched func base ff w =
    (mkWorld (functions w) (open_files w)
       (trace w ++ [EvWarning (base + offset ff)]), Ok tt).
Proof.
  intros Hne H1 H2.
  unfold FlirtAnalysis._on_func_matched, bind, get_functions. simpl.
  destruct (decide (base + offset ff ≠ base)) as [_|]; [|done].
  unfold FlirtAnalysis.lookup_owner, FlirtAnalysis._is_arm. rewrite H1.
  destruct (is_arm_arch project); [by rewrite H2|done].
Qed.

Lemma get_by_addr_ext (fs fs' : list Function) (a : Z) :
  addr <$> fs = addr <$> fs' →
  FlirtAnalysis.get_by_addr fs a = FlirtAnalysis.get_by_addr fs' a.
Proof.
  revert fs'. induction fs as [|f fs IH]; intros [|f' fs'] H; try done.
  rewrite !fmap_cons in H. injection H as Hf H. specialize (IH fs' H).
  unfold FlirtAnalysis.get_by_addr in *. simpl. rewrite Hf.
  destruct (decide (addr f' = a)); [done|].
  destruct (list_find _ fs) as [[i x]|], (list_find _ fs') as [[j y]|];
    simpl in *; congruence.
Qed.

Lemma addr_rename (fs : list Function) (j : nat) (f : Function)
    (ff : FlirtFunction) :
  fs !! j = Some f →
  addr <$> <[j := FlirtAnalysis.rename f ff]> fs = addr <$> fs.
Proof.
  intros Hj. rewrite list_fmap_insert. simpl.
  apply list_insert_id. by rewrite list_lookup_fmap, Hj.
Qed.

Lemma on_func_matched_functions (w : World) (func : nat) (base : Z)
    (ff : FlirtFunction) :
  functions (on_func_matched func base ff w).1 =
  match hit_target project (functions w) func base ff with
  | Some j => apply_name (functions w) j ff
  | None => functions w
  end.
Proof.
  unfold FlirtAnalysis._on_func_matched, bind, get_functions, hit_target, apply_name.
  simpl.
  destruct (if decide (base + offset ff ≠ base)
            then lookup_owner (functions w) (base + offset ff)
            else Some func) as [j|]; [|done].
  destruct (functions w !! j) as [f|]; [|done].
  by destruct (is_default_name f).
Qed.

Lemma addr_apply_name (fs : list Function) (j : nat) (ff : FlirtFunction) :
  addr <$> apply_name fs j ff = addr <$> fs.
Proof.
  unfold apply_name. destruct (fs !! j) as [f|] eqn:Hj; [|done].
  destruct (is_default_name f); [by apply addr_rename|done].
Qed.

Lemma target_ext (fs fs' : list Function) (func : nat) (base : Z)
    (ff ff' : FlirtFunction) :
  addr <$> fs = addr <$> fs' → offset ff' = offset ff →
  hit_target project fs' func base ff' = hit_target project fs func base ff.
Proof.
  intros H Ho. unfold hit_target, FlirtAnalysis.lookup_owner. rewrite Ho.
  destruct (decide (base + offset ff ≠ base)); [|done].
  rewrite <- (get_by_addr_ext fs fs' _ H).
  by rewrite <- (get_by_addr_ext fs fs' (base + offset ff + 1) H).
Qed.

Lemma apply_name_twice (fs : list Function) (j : nat) (ff ff' : FlirtFunction) :
  apply_name (apply_name fs j ff) j ff' = apply_name fs j ff.
Proof.
  unfold apply_name. destruct (fs !! j) as [f|] eqn:Hj; [|by rewrite Hj].
  destruct (is_default_name f) eqn:Hd; [|by rewrite Hj, Hd].
  rewrite list_lookup_insert_eq by (by apply lookup_lt_Some in Hj). done.
Qed.

(** The first hit wins: after a hit, a further hit from the same base at
    the same offset, whatever name it carries, leaves every function as the
    first hit left it. *)
Theorem repeated_hit_changes_nothing (w : World) (func : nat) (base : Z)
    (ff ff' : FlirtFunction) :
  offset ff' = offset ff →
  functions (on_func_matched func base ff'
               (on_func_matched func base ff w).1).1 =
  functions (on_func_matched func base ff w).1.
Proof.
  intros Ho. rewrite (on_func_matched_functions _ func base ff').
  rewrite (on_func_matched_functions w func base ff).
  destruct (hit_target project (functions w) func base ff) as [j|] eqn:Ht.
  - rewrite (target_ext (functions w) _ func base ff ff');
      [|by rewrite addr_apply_name|done].
    rewrite Ht. apply apply_name_twice.
  - rewrite (target_ext (functions w) _ func base ff ff'); [|done|done].
    by rewrite Ht.
Qed.

(** The loop skips a function that is a simulated procedure, a library
    stub, or already named: nothing is loaded, the matcher is not called,
    and the state is left as it is. *)
Theorem ineligible_function_not_scanned (flirt : FlirtFile) (w : World)
    (i : nat) (f : Function) :
  functions w !! i = Some f →
  eligible f = false →
  scan_function flirt i w = (w, Ok tt).
Proof.
  intros Hi He. unfold FlirtAnalysis.scan_function, bind, get_functions.
  simpl. rewrite Hi. unfold eligible in He.
  destruct (is_simprocedure f || is_plt f); [done|].
  simpl in He. by rewrite He.
Qed.

Lemma max_in (s : gset Z) (m : Z) : Py.max s = Ok m → m ∈ s.
Proof.
  unfold Py.max. destruct (elements s) as [|x xs] eqn:E; [done|].
  intros [= <-]. apply elem_of_elements. rewrite E.
  destruct (foldr_max_in x xs) as [->|H]; [left|by right].
Qed.

(** The window of a function can be computed exactly when the function has
    a basic block; without one, the only outcome is [ValueError]. *)
Theorem scan_window_fails_iff_no_blocks (func : Function) :
  (scan_window func = Raise ValueError ↔ block_addrs_set func = ∅)
  ∧ ((∃ start end_, scan_window func = Ok (start, end_))
     ↔ block_addrs_set func ≠ ∅)
  ∧ ∀ e, scan_window func = Raise e → e = ValueError.
Proof.
  unfold FlirtAnalysis.scan_window, Py.max.
  destruct (elements (block_addrs_set func)) as [|x xs] eqn:E.
  - apply elements_empty_iff, leibniz_equiv in E. rewrite E.
    split; [done|]. split; [|by intros e [= <-]].
    split; [by intros (? & ? & ?)|done].
  - assert (Hne : block_addrs_set func ≠ ∅).
    { intros H. rewrite H, elements_empty in E. done. }
    split; [split; [done|by intros ?]|].
    split; [|done]. split; [done|]. intros _. by eexists _, _.
Qed.

End CallbackFacts.

Section CallbackExamples.

Import Examples.

Lemma hit_at_base_witness :
  name <$> (functions
              (FlirtAnalysis._on_func_matched x86_project 1 0x1040
                 (mkFlirtFunction 0 "deflate")
                 (world_of [func_1000; thumb_helper])).1 !! 1%nat)
  = Some "deflate"%string.
Proof.
  rewrite (hit_at_base_names_scanned_function x86_project
             (world_of [func_1000; thumb_helper]) 1 0x1040
             (mkFlirtFunction 0 "deflate") thumb_helper eq_refl eq_refl).
  reflexivity.
Defined.

Lemma unresolved_hit_witness :
  trace (FlirtAnalysis._on_func_matched arm_project 0 0x1000
           (mkFlirtFunction 0x80 "memcpy")
           (world_of [func_1000; thumb_helper])).1
  = [EvWarning 0x1080].
Proof.
  rewrite (unresolved_hit_only_warns arm_project
             (world_of [func_1000; thumb_helper]) 0 0x1000
             (mkFlirtFunction 0x80 "memcpy")).
  - reflexivity.
  - vm_compute. congruence.
  - reflexivity.
  - intros _. reflexivity.
Defined.

Lemma repeated_hit_witness :
  name <$> (functions
              (FlirtAnalysis._on_func_matched x86_project 0 0x1000
                 (mkFlirtFunction 0 "second")
                 (FlirtAnalysis._on_func_matched x86_project 0 0x1000
                    (mkFlirtFunction 0 "first")
                    (world_of [func_1000])).1).1 !! 0%nat)
  = Some "first"%string.
Proof.
  rewrite (repeated_hit_changes_nothing x86_project (world_of [func_1000])
             0 0x1000 (mkFlirtFunction 0 "first") (mkFlirtFunction 0 "second")
             eq_refl).
  reflexivity.
Defined.

Lemma ineligible_function_witness :
  FlirtAnalysis.scan_function unit match_two no_memory x86_project tt 1
    (world_of [func_1000; plt_stub])
  = (world_of [func_1000; plt_stub], Ok tt).
Proof.
  exact (ineligible_function_not_scanned match_two no_memory x86_project tt
           (world_of [func_1000; plt_stub]) 1 plt_stub eq_refl eq_refl).
Defined.

End CallbackExamples.

(** * Further facts about the selector *)

Section SelectorEdges.

Import Selector.

Lemma scan_tokens_no_regions (tokens : list (string * gset string)) (h : hits) :
  scan_tokens tokens [] h = Ok h.
Proof. induction tokens as [|[s libs] tokens IH]; simpl; done. Qed.

(** Without a buffer the selector selects nothing, and it does not even
    encode a token: the result is the empty list for every catalog, also
    for one with a token outside ASCII. *)
Theorem no_buffers_no_signatures (cat : Catalog) (arch_name : string) :
  _find_hits_by_strings cat arch_name [] = Ok [].
Proof.
  unfold _find_hits_by_strings. by rewrite scan_tokens_no_regions.
Qed.

(** When no token of the catalog occurs in any buffer, the result is the
    empty list, not an error. *)
Theorem no_token_hit_no_signatures (cat : Catalog) (arch_name : string)
    (regions : list bytes) :
  Forall (λ entry, ∃ needle, encode_ascii entry.1 = Ok needle)
    (STRING_TO_LIBRARIES cat) →
  (∀ entry region,
     entry ∈ STRING_TO_LIBRARIES cat → region ∈ regions →
     token_in entry.1 region = false) →
  _find_hits_by_strings cat arch_name regions = Ok [].
Proof.
  intros Henc Hno.
  destruct (scan_tokens_ok (STRING_TO_LIBRARIES cat) regions [] Henc)
    as (h & Eh & Hwf & Hc).
  specialize (Hwf hits_wf_nil).
  destruct (sorted_libraries_ranked h Hwf) as (_ & Hin & _).
  rewrite (find_hits_unfold cat arch_name regions h Eh).
  destruct (sorted_libraries h) as [|lib l] eqn:E; [done|]. exfalso.
  assert (Hpos : (0 < hit_count h lib)%nat) by (apply Hin; left).
  rewrite Hc, hit_count_nil in Hpos. simpl in Hpos.
  apply pair_hits_pos in Hpos as (entry & region & He & Hr & _ & Htok).
  apply token_in_spec in Htok. by rewrite (Hno entry region He Hr) in Htok.
Qed.

Lemma encode_ascii_raises (s : string) (e : exn) :
  encode_ascii s = Raise e → e = UnicodeEncodeError.
Proof.
  induction s as [|c s IH]; simpl; [done|].
  destruct (nat_of_ascii c <? 128)%nat; [|by intros [= <-]].
  destruct (encode_ascii s); [done|]. intros [= <-]. by apply IH.
Qed.

(** [encode("ascii")] fails exactly on a string with a character whose
    code is 128 or more. *)
Lemma encode_ascii_fails_iff (s : string) :
  encode_ascii s = Raise UnicodeEncodeError ↔
  ∃ c, In c (list_ascii_of_string s) ∧ (128 ≤ nat_of_ascii c)%nat.
Proof.
  induction s as [|c s IH]; simpl.
  - split; [done|]. by intros (c & [] & _).
  - destruct (Nat.ltb_spec (nat_of_ascii c) 128) as [Hc|Hc].
    + destruct (encode_ascii s) as [bs|e] eqn:E.
      * split; [done|]. intros (c' & [<-|Hin] & Hc'); [lia|].
        destruct IH as [_ IH]. discriminate IH. by exists c'.
      * rewrite (encode_ascii_raises s e E) in *. split; [|done].
        intros _. destruct IH as [IH _].
        destruct (IH eq_refl) as (c' & Hin & Hc'). exists c'. by split; [right|].
    + split; [|done]. intros _. exists c. by split; [left|].
Qed.

Lemma scan_regions_raises (s : string) (libs : gset string) (r : bytes)
    (regions : list bytes) (h : hits) (e : exn) :
  encode_ascii s = Raise e → scan_regions s libs (r :: regions) h = Raise e.
Proof. intros E. simpl. by rewrite E. Qed.

Lemma scan_tokens_app (pre post : list (string * gset string))
    (regions : list bytes) (h : hits) :
  scan_tokens (pre ++ post) regions h =
  match scan_tokens pre regions h with
  | Ok h' => scan_tokens post regions h'
  | Raise e => Raise e
  end.
Proof.
  revert h. induction pre as [|[s libs] pre IH]; intros h; simpl; [done|].
  destruct (scan_regions s libs regions h); [apply IH|done].
Qed.

(** A token with a character outside ASCII makes the selector fail with
    [UnicodeEncodeError] as soon as there is a buffer to search, whatever
    the other tokens and the buffers hold. *)
Theorem non_ascii_token_raises (cat : Catalog) (arch_name : string)
    (regions : list bytes) (pre post : list (string * gset string))
    (s : string) (libs : gset string) (c : ascii) :
  STRING_TO_LIBRARIES cat = pre ++ (s, libs) :: post →
  Forall (λ entry, ∃ needle, encode_ascii entry.1 = Ok needle) pre →
  In c (list_ascii_of_string s) →
  (128 ≤ nat_of_ascii c)%nat →
  regions ≠ [] →
  _find_hits_by_strings cat arch_name regions = Raise UnicodeEncodeError.
Proof.
  intros Ht Hpre Hin Hc Hr. unfold _find_hits_by_strings.
  rewrite Ht, scan_tokens_app.
  destruct (scan_tokens_ok pre regions [] Hpre) as (h & -> & _).
  destruct regions as [|r regions]; [done|]. cbn [scan_tokens].
  rewrite (scan_regions_raises s libs r regions h UnicodeEncodeError); [done|].
  apply encode_ascii_fails_iff. by exists c.
Qed.

(** The ranking is stable: the libraries with the same number of hits
    stand in the ranking in the order in which the table holds them, which
    is the order in which they were first credited. *)
Theorem ranking_is_stable (h : hits) (k : nat) :
  sorted_libraries h ≡ₚ h.*1
  ∧ descending (hit_count h) (sorted_libraries h)
  ∧ List.filter (λ lib, hit_count h lib =? k)%nat (sorted_libraries h) =
    List.filter (λ lib, hit_count h lib =? k)%nat h.*1.
Proof.
  unfold sorted_libraries. split; [apply sorted_desc_perm|].
  split; [apply sorted_desc_descending|apply sorted_desc_filter].
Qed.

(** A library that is credited for the first time is put behind the
    libraries credited before it, which keep their places. *)
Theorem first_credit_appends (lib : string) (h : hits) :
  (lib ∈ h.*1 → (incr lib h).*1 = h.*1)
  ∧ (lib ∉ h.*1 → (incr lib h).*1 = h.*1 ++ [lib] ∧ hit_count (incr lib h) lib = 1%nat).
Proof.
  rewrite incr_keys. split.
  - intros H. by rewrite decide_True.
  - intros H. rewrite decide_False by done. split; [done|].
    rewrite hit_count_incr, decide_True by done.
    assert (hit_count h lib = 0%nat); [|lia].
    clear -H. induction h as [|[k' n] h IH]; [done|].
    rewrite hit_count_cons. rewrite fmap_cons, not_elem_of_cons in H.
    destruct H as [H1 H2]. simpl in H1. rewrite decide_False by done. by apply IH.
Qed.

Lemma foldl_incr_wf (l : list string) (h : hits) :
  hits_wf h → hits_wf (foldl (λ acc lib, incr lib acc) h l).
Proof.
  revert h. induction l as [|x l IH]; intros h Hh; simpl; [done|].
  by apply IH, incr_wf.
Qed.

Lemma foldl_incr_keys (l : list string) (h : hits) :
  ∃ new, (foldl (λ acc lib, incr lib acc) h l).*1 = h.*1 ++ new.
Proof.
  revert h. induction l as [|x l IH]; intros h; simpl.
  - exists []. by rewrite app_nil_r.
  - destruct (IH (incr x h)) as [new ->]. rewrite incr_keys.
    destruct (decide (x ∈ h.*1)); [by exists new|].
    exists ([x] ++ new). by rewrite app_assoc.
Qed.

(** The order in which the libraries of a token are credited does not
    matter for the counts: walking the set in any order gives every library
    the count that [credit] gives it, keeps the libraries that were in the
    table at their places, puts the new ones behind them, and gives a table
    with the same libraries. *)
Theorem credit_order_irrelevant (libs : gset string) (l : list string)
    (h : hits) :
  l ≡ₚ elements libs →
  let h' := foldl (λ acc lib, incr lib acc) h l in
  (∀ lib, hit_count h' lib = hit_count (credit libs h) lib)
  ∧ (∃ new, h'.*1 = h.*1 ++ new)
  ∧ (∃ new, (credit libs h).*1 = h.*1 ++ new)
  ∧ (hits_wf h → hits_wf h' ∧ h'.*1 ≡ₚ (credit libs h).*1).
Proof.
  intros Hl h'.
  assert (Hnd : NoDup l) by (rewrite Hl; apply NoDup_elements).
  assert (Hc : ∀ lib, hit_count h' lib = hit_count (credit libs h) lib).
  { intros lib. unfold h'. rewrite hit_count_incr_list, hit_count_credit by done.
    f_equal. destruct (decide (lib ∈ l)) as [H|H]; rewrite Hl, elem_of_elements in H.
    - by rewrite bool_decide_eq_true_2.
    - by rewrite bool_decide_eq_false_2. }
  split; [exact Hc|]. split; [apply foldl_incr_keys|].
  split; [apply foldl_incr_keys|].
  intros Hh. assert (Hh' := foldl_incr_wf l h Hh). fold h' in Hh'.
  split; [exact Hh'|].
  assert (Hcr := credit_wf libs h Hh).
  apply NoDup_Permutation; [apply Hh'|apply Hcr|].
  intros lib. rewrite (hits_wf_key h' lib Hh'), (hits_wf_key _ lib Hcr).
  by rewrite Hc.
Qed.

End SelectorEdges.

Section SelectorEdgeExamples.

Import Selector Examples.

Lemma no_token_hit_witness :
  _find_hits_by_strings zlib_catalog "X86" [ascii_bytes "no version string"]
  = Ok [].
Proof.
  apply (no_token_hit_no_signatures zlib_catalog "X86"
           [ascii_bytes "no version string"] zlib_tokens_encodable).
  intros entry region He Hr. apply list_elem_of_singleton in Hr as ->.
  apply elem_of_cons in He as [->|He]; [reflexivity|].
  apply list_elem_of_singleton in He as ->. reflexivity.
Defined.

Lemma non_ascii_token_witness :
  _find_hits_by_strings
    (mkCatalog [zlib_entry; (String (ascii_of_nat 233) "t", {[ "lib"%string ]})]
       ∅ {[ "x86"%string := [zlib_x86] ]})
    "X86" [zlib_region]
  = Raise UnicodeEncodeError.
Proof.
  apply (non_ascii_token_raises _ "X86" [zlib_region] [zlib_entry] []
           (String (ascii_of_nat 233) "t") {[ "lib"%string ]} (ascii_of_nat 233)).
  - reflexivity.
  - repeat constructor. eexists. reflexivity.
  - left. reflexivity.
  - vm_compute. lia.
  - discriminate.
Defined.

Lemma credit_order_witness :
  hit_count
    (foldl (λ acc lib, incr lib acc) [("zlib"%string, 2%nat)]
       (reverse (elements ({[ "zlib"%string; "libpng"%string ]} : gset string))))
    "zlib"
  = hit_count
      (credit {[ "zlib"%string; "libpng"%string ]} [("zlib"%string, 2%nat)])
      "zlib".
Proof.
  exact (proj1 (credit_order_irrelevant {[ "zlib"%string; "libpng"%string ]}
                  (reverse (elements
                     ({[ "zlib"%string; "libpng"%string ]} : gset string)))
                  [("zlib"%string, 2%nat)]
                  (reverse_Permutation _)) "zlib"%string).
Defined.

End SelectorEdgeExamples.

(** * Further facts about [__init__] *)

Section InitFacts.

Context {FlirtFile : Type}.
Context (open_rb : string -> result bytes).
Context (parse_flirt_file : bytes -> result FlirtFile).
Context (match_function : FlirtFile -> bytes -> Z -> list (Z * FlirtFunction)).
Context (memory_load : Z -> Z -> bytes).
Context (project : Project) (catalog : Catalog).

Local Abbreviation match_all :=
  (FlirtAnalysis._match_all_against_one_signature FlirtFile open_rb
     parse_flirt_file match_function memory_load project).
Local Abbreviation match_signatures :=
  (FlirtAnalysis.match_signatures FlirtFile open_rb parse_flirt_file
     match_function memory_load project).
Local Abbreviation load_regions := (FlirtAnalysis.load_regions memory_load project).
Local Abbreviation init :=
  (FlirtAnalysis.__init__ FlirtFile open_rb parse_flirt_file match_function
     memory_load project catalog).

Lemma for_each_log {A} (l : list A) (ev : A -> Event) (w : World) :
  for_each l (λ x, log (ev x)) w =
  (mkWorld (functions w) (open_files w) (trace w ++ map ev l), Ok tt).
Proof.
  revert w. induction l as [|x l IH]; intros w; simpl.
  - rewrite app_nil_r. by destruct w.
  - unfold bind, log at 1. rewrite IH. simpl. by rewrite <- app_assoc.
Qed.

(** The memory regions of heuristic mode: one load of [memsize] bytes at
    [vaddr] for each segment of the main object that has a positive size in
    the file and in memory, in the order of the segments; the other segments
    are not loaded. Loading does not fail and touches neither the functions
    nor the open files. *)
Theorem load_regions_loads_mapped_segments (w : World) :
  ∃ segs,
    (∀ seg, seg ∈ segs ↔
       seg ∈ segments project ∧ 0 < filesize seg ∧ 0 < memsize seg)
    ∧ segs `sublist_of` segments project
    ∧ load_regions w =
        (mkWorld (functions w) (open_files w)
           (trace w ++ map (λ seg, EvLoad (vaddr seg) (memsize seg)) segs),
         Ok (map (λ seg, memory_load (vaddr seg) (memsize seg)) segs)).
Proof.
  exists (List.filter (λ seg, (0 <? filesize seg) && (0 <? memsize seg))
            (segments project)).
  split; [|split].
  - intros seg. rewrite !list_elem_of_In, filter_In, andb_true_iff.
    by rewrite !Z.ltb_lt.
  - induction (segments project) as [|seg l IH]; simpl; [done|].
    destruct (_ && _); [by apply sublist_skip|by apply sublist_cons].
  - unfold FlirtAnalysis.load_regions, bind. by rewrite for_each_log.
Qed.

(** Heuristic mode without any loaded signature is a configuration error:
    the constructor raises [RuntimeError] before it loads a segment, opens a
    file or touches a function. An empty path string counts as no
    signature and takes the same way. *)
Theorem heuristic_mode_requires_signatures (w : World) :
  FLIRT_SIGNATURES_BY_ARCH catalog = ∅ →
  init SigNone w = (w, Raise RuntimeError)
  ∧ init (SigStr "") w = (w, Raise RuntimeError).
Proof.
  intros H. unfold FlirtAnalysis.__init__, bind. simpl.
  unfold FlirtAnalysis.heuristic_signatures.
  by rewrite bool_decide_eq_true_2.
Qed.

(** Heuristic mode with loaded signatures: the regions are loaded, the
    selector runs on them, and its signatures are matched one after the
    other in the order in which the selector gave them. An exception of the
    selector ends the run before any signature file is opened. *)
Theorem heuristic_mode_runs_selected_signatures (w : World) :
  FLIRT_SIGNATURES_BY_ARCH catalog ≠ ∅ →
  let segs := List.filter (λ seg, (0 <? filesize seg) && (0 <? memsize seg))
                (segments project) in
  let regions := map (λ seg, memory_load (vaddr seg) (memsize seg)) segs in
  let loads := map (λ seg, EvLoad (vaddr seg) (memsize seg)) segs in
  match Selector._find_hits_by_strings catalog (arch_name project) regions with
  | Ok sigs =>
      init SigNone w =
      match_signatures sigs
        (mkWorld (functions w) (open_files w)
           (trace w ++ loads ++ [EvDebugSignatures (length sigs)]))
  | Raise e =>
      init SigNone w =
      (mkWorld (functions w) (open_files w) (trace w ++ loads), Raise e)
  end.
Proof.
  intros H segs regions loads.
  assert (Hinit : init SigNone w =
            match Selector._find_hits_by_strings catalog (arch_name project)
                    regions with
            | Ok sigs =>
                match_signatures sigs
                  (mkWorld (functions w) (open_files w)
                     (trace w ++ loads ++ [EvDebugSignatures (length sigs)]))
            | Raise e =>
                (mkWorld (functions w) (open_files w) (trace w ++ loads), Raise e)
            end).
  { unfold FlirtAnalysis.__init__, bind at 1.
    unfold FlirtAnalysis.heuristic_signatures.
    rewrite bool_decide_eq_false_2 by done.
    unfold bind at 1, FlirtAnalysis.load_regions, bind at 1.
    rewrite for_each_log. fold segs. simpl. fold regions loads.
    unfold bind at 1, lift.
    destruct (Selector._find_hits_by_strings catalog (arch_name project) regions)
      as [sigs|e]; [|done].
    unfold bind, log, ret. simpl. by rewrite <- app_assoc. }
  by destruct (Selector._find_hits_by_strings catalog (arch_name project) regions).
Qed.

Lemma match_all_open_failure (w : World) (sig : FlirtSignature) (e : exn) :
  open_rb (sig_path sig) = Raise e → match_all sig w = (w, Raise e).
Proof.
  intros H. unfold FlirtAnalysis._match_all_against_one_signature,
    FlirtAnalysis.with_open. by rewrite H.
Qed.

(** A signature file that cannot be opened ends the run with the error of
    [open]: the parser and the matcher are not called for it, the state is
    as the signatures before it left it, and the signatures after it are
    not tried. *)
Theorem open_failure_aborts_run (w w1 : World) (pre rest : list FlirtSignature)
    (sig : FlirtSignature) (e : exn) :
  match_signatures pre w = (w1, Ok tt) →
  open_rb (sig_path sig) = Raise e →
  match_signatures (pre ++ sig :: rest) w = (w1, Raise e).
Proof.
  intros Hpre Hopen.
  apply (for_each_raise pre rest sig _ w w1 _ e Hpre).
  by apply match_all_open_failure.
Qed.

End InitFacts.

Section NameFacts.

Lemma format_x_decode (n : Z) :
  0 ≤ n → Z.of_N (HexString.Raw.to_N (format_x n) 0) = n.
Proof.
  intros Hn. destruct n as [|p|p]; [done| |lia].
  unfold format_x. by rewrite HexString.Raw.to_N_of_pos.
Qed.

Lemma format_x_inj (n m : Z) :
  0 ≤ n → 0 ≤ m → format_x n = format_x m → n = m.
Proof.
  intros Hn Hm H. rewrite <- (format_x_decode n Hn), <- (format_x_decode m Hm).
  by rewrite H.
Qed.

(** A match without a name (["?"]) gives the function the name
    [unknown_function_] followed by its own address in lower-case
    hexadecimal without prefix; functions at different addresses get
    different names. *)
Theorem unknown_function_names (f g : Function) (ff : FlirtFunction) :
  ff_name ff = "?"%string →
  0 ≤ addr f → 0 ≤ addr g →
  name (FlirtAnalysis.rename f ff) =
    ("unknown_function_" +:+ format_x (addr f))%string
  ∧ Z.of_N (HexString.Raw.to_N (format_x (addr f)) 0) = addr f
  ∧ (name (FlirtAnalysis.rename f ff) = name (FlirtAnalysis.rename g ff) →
     addr f = addr g).
Proof.
  intros Hn Hf Hg. unfold FlirtAnalysis.rename. simpl. rewrite Hn.
  destruct (decide ("?"%string ≠ "?"%string)) as [H|_]; [done|].
  split; [done|]. split; [by apply format_x_decode|].
  intros H. apply format_x_inj; [done|done|].
  unfold String.app in H. simpl in H. by simplify_eq.
Qed.

End NameFacts.

Section InitExamples.

Import Examples.

Lemma heuristic_mode_requires_signatures_witness :
  FlirtAnalysis.__init__ unit no_file parse_any no_match no_memory
    x86_project empty_catalog SigNone (world_of [func_1000])
  = (world_of [func_1000], Raise RuntimeError).
Proof.
  exact (proj1 (heuristic_mode_requires_signatures no_file parse_any no_match
                  no_memory x86_project empty_catalog (world_of [func_1000])
                  eq_refl)).
Defined.

Lemma open_failure_aborts_run_witness :
  FlirtAnalysis.match_signatures unit files_bad_good parse_nonzero no_match
    no_memory x86_project
    [sig_of "x86" "missing.sig"; sig_of "x86" "good.sig"]
    (world_of [func_1000])
  = (world_of [func_1000], Raise OSError).
Proof.
  exact (open_failure_aborts_run files_bad_good parse_nonzero no_match
           no_memory x86_project (world_of [func_1000]) (world_of [func_1000])
           [] [sig_of "x86" "good.sig"] (sig_of "x86" "missing.sig") OSError
           eq_refl eq_refl).
Defined.

Lemma unknown_function_names_witness :
  name (FlirtAnalysis.rename func_1000 (mkFlirtFunction 0 "?"))
  = "unknown_function_1000"%string.
Proof.
  assert (H1 : 0 ≤ addr func_1000) by (vm_compute; congruence).
  assert (H2 : 0 ≤ addr thumb_helper) by (vm_compute; congruence).
  rewrite (proj1 (unknown_function_names func_1000 thumb_helper
                    (mkFlirtFunction 0 "?") eq_refl H1 H2)).
  reflexivity.
Defined.

End InitExamples.

(** * Relations maintained by a run *)

Section FunctionsInvariant.

Context (R : list Function -> list Function -> Prop).
Context (R_refl : ∀ fs, R fs fs).
Context (R_trans : ∀ fs1 fs2 fs3, R fs1 fs2 → R fs2 fs3 → R fs1 fs3).

Lemma maintains_ret {A} (a : A) : maintains R (ret a).
Proof. intros w. apply R_refl. Qed.

Lemma maintains_raise {A} (e : exn) : maintains R (@raise A e).
Proof. intros w. apply R_refl. Qed.

Lemma maintains_lift {A} (r : result A) : maintains R (lift r).
Proof. intros w. apply R_refl. Qed.

Lemma maintains_log (e : Event) : maintains R (log e).
Proof. intros w. apply R_refl. Qed.

Lemma maintains_bind {A B} (m : M A) (k : A -> M B) :
  maintains R m → (∀ a, maintains R (k a)) → maintains R (bind m k).
Proof.
  intros Hm Hk w. unfold bind. specialize (Hm w).
  destruct (m w) as [w' [a|e]]; simpl in *; [|done].
  eapply R_trans; [exact Hm|apply Hk].
Qed.

Lemma maintains_for_each {A} (l : list A) (body : A -> M unit) :
  (∀ x, maintains R (body x)) → maintains R (for_each l body).
Proof.
  intros Hb. induction l as [|x l IH]; simpl.
  - apply maintains_ret.
  - apply maintains_bind; [apply Hb|]. by intros _.
Qed.

Lemma maintains_with_open {A} (open_rb : string -> result bytes)
    (path : string) (body : bytes -> M A) :
  (∀ f, maintains R (body f)) →
  maintains R (FlirtAnalysis.with_open open_rb path body).
Proof.
  intros Hb w. unfold FlirtAnalysis.with_open.
  destruct (open_rb path) as [sigfile|e]; [|apply R_refl].
  specialize (Hb sigfile
    (mkWorld (functions w) (path :: open_files w) (trace w ++ [EvOpen path]))).
  simpl in Hb. destruct (body sigfile _) as [w2 r]. exact Hb.
Qed.

(** A relation maintained by the loop body is maintained by the run. *)
Lemma maintains_run {FlirtFile : Type} (open_rb : string -> result bytes)
    (parse_flirt_file : bytes -> result FlirtFile)
    (match_function : FlirtFile -> bytes -> Z -> list (Z * FlirtFunction))
    (memory_load : Z -> Z -> bytes) (project : Project) (catalog : Catalog) :
  (∀ flirt i,
     maintains R (FlirtAnalysis.scan_function FlirtFile match_function
                    memory_load project flirt i)) →
  ∀ sig,
    maintains R (FlirtAnalysis.__init__ FlirtFile open_rb parse_flirt_file
                   match_function memory_load project catalog sig).
Proof.
  intros Hscan sig. unfold FlirtAnalysis.__init__. apply maintains_bind.
  - assert (Hh : maintains R (FlirtAnalysis.heuristic_signatures memory_load
                                project catalog)).
    { unfold FlirtAnalysis.heuristic_signatures.
      destruct (bool_decide _); [apply maintains_raise|].
      apply maintains_bind.
      - unfold FlirtAnalysis.load_regions. apply maintains_bind.
        + apply maintains_for_each. intros seg. apply maintains_log.
        + intros _. apply maintains_ret.
      - intros regions. apply maintains_bind; [apply maintains_lift|].
        intros sigs. apply maintains_bind; [apply maintains_log|].
        intros _. apply maintains_ret. }
    destruct sig as [|path|s]; [done| |apply maintains_ret].
    destruct (str_truthy path); [apply maintains_ret|done].
  - intros [sigs|]; [|apply maintains_raise].
    apply maintains_for_each. intros s.
    apply maintains_with_open. intros sigfile.
    apply maintains_bind; [apply maintains_lift|]. intros flirt.
    intros w. unfold bind at 1, get_functions.
    apply maintains_for_each. intros i. apply Hscan.
Qed.

End FunctionsInvariant.

Section StubFacts.

Context {FlirtFile : Type}.
Context (open_rb : string -> result bytes).
Context (parse_flirt_file : bytes -> result FlirtFile).
Context (match_function : FlirtFile -> bytes -> Z -> list (Z * FlirtFunction)).
Context (memory_load : Z -> Z -> bytes).
Context (project : Project) (catalog : Catalog).

Local Abbreviation on_func_matched := (FlirtAnalysis._on_func_matched project).
Local Abbreviation scan_function :=
  (FlirtAnalysis.scan_function FlirtFile match_function memory_load project).
Local Abbreviation init :=
  (FlirtAnalysis.__init__ FlirtFile open_rb parse_flirt_file match_function
     memory_load project catalog).

Lemma keeps_stubs_refl (fs : list Function) : keeps_stubs fs fs.
Proof. by intros i f Hi _. Qed.

Lemma keeps_stubs_trans (fs1 fs2 fs3 : list Function) :
  keeps_stubs fs1 fs2 → keeps_stubs fs2 fs3 → keeps_stubs fs1 fs3.
Proof. intros H12 H23 i f Hi Hs. apply H23; [by apply H12|done]. Qed.

(** Hits at the base of a function that is no stub leave the stubs alone. *)
Lemma hits_at_base_keep_stubs (hits : list (Z * FlirtFunction)) (i : nat)
    (w : World) (f : Function) :
  Forall (λ hit, offset hit.2 = 0) hits →
  functions w !! i = Some f →
  is_stub f = false →
  keeps_stubs (functions w)
    (functions (for_each hits (λ hit, on_func_matched i hit.1 hit.2) w).1).
Proof.
  intros Hhits. revert w f.
  induction Hhits as [|[base ff] hits Hoff Hhits IH]; intros w f Hi Hs; simpl.
  - apply keeps_stubs_refl.
  - unfold bind. simpl in Hoff.
    rewrite (on_func_matched_at_base project w i base ff f Hoff Hi).
    destruct (is_default_name f) eqn:Hd.
    + eapply keeps_stubs_trans; [|eapply (IH _ (FlirtAnalysis.rename f ff))].
      * intros j g Hj Hg. simpl. destruct (decide (i = j)) as [->|Hne].
        -- congruence.
        -- by rewrite list_lookup_insert_ne.
      * simpl. apply list_lookup_insert_eq. by apply lookup_lt_Some in Hi.
      * done.
    + by apply (IH w f).
Qed.

Lemma scan_function_keeps_stubs (flirt : FlirtFile) (i : nat) :
  (∀ flirt buf start, Forall (λ hit, offset hit.2 = 0)
                        (match_function flirt buf start)) →
  maintains keeps_stubs (scan_function flirt i).
Proof.
  intros Hbase w. unfold FlirtAnalysis.scan_function, bind at 1, get_functions.
  simpl. destruct (functions w !! i) as [func|] eqn:Hi; [|apply keeps_stubs_refl].
  destruct (is_simprocedure func || is_plt func) eqn:Hs; [apply keeps_stubs_refl|].
  destruct (negb (is_default_name func)); [apply keeps_stubs_refl|].
  unfold bind at 1, lift.
  destruct (FlirtAnalysis.scan_window project func) as [[start end_]|e];
    [|apply keeps_stubs_refl].
  unfold bind at 1, log at 1. simpl. unfold bind at 1, log at 1. simpl.
  apply (hits_at_base_keep_stubs _ i (mkWorld (functions w) (open_files w) _) func);
    [apply Hbase|exact Hi|exact Hs].
Qed.

(** When the matcher only reports hits at the base of the function it was
    given, a run renames no simulated procedure and no library stub: each
    keeps its name, its placeholder flag and its provenance. *)
Theorem stubs_kept_when_hits_at_base (sig : SigArg) (w : World) (i : nat)
    (f : Function) :
  (∀ flirt buf start, Forall (λ hit, offset hit.2 = 0)
                        (match_function flirt buf start)) →
  functions w !! i = Some f →
  is_simprocedure f || is_plt f = true →
  functions (init sig w).1 !! i = Some f.
Proof.
  intros Hbase Hi Hs.
  apply (maintains_run keeps_stubs keeps_stubs_refl keeps_stubs_trans
           open_rb parse_flirt_file match_function memory_load project catalog
           (λ flirt j, scan_function_keeps_stubs flirt j Hbase) sig w i f Hi Hs).
Qed.

End StubFacts.

Section StubExamples.

Import Examples.

Lemma match_base_at_base (flirt : unit) (buf : bytes) (start : Z) :
  Forall (λ hit : Z * FlirtFunction, offset hit.2 = 0) (match_base flirt buf start).
Proof. repeat constructor. Defined.

Lemma stubs_kept_witness :
  functions
    (FlirtAnalysis.__init__ unit no_file parse_any match_base no_memory
       x86_project empty_catalog (SigStr "a.sig")
       (world_of [func_1000; plt_stub])).1 !! 1%nat
  = Some plt_stub.
Proof.
  exact (stubs_kept_when_hits_at_base no_file parse_any match_base no_memory
           x86_project empty_catalog (SigStr "a.sig")
           (world_of [func_1000; plt_stub]) 1 plt_stub
           match_base_at_base eq_refl eq_refl).
Defined.

Lemma run_changes_only_by_naming_witness :
  is_default_name func_1000 = true
  ∧ from_signature
      (mkFunction 0x1000 {[ 0x1000 := 0x20; 0x1020 := 0x10 ]}
         false false false "inflate" (Some "flirt"))
    = Some "flirt"%string.
Proof.
  destruct (run_changes_only_by_naming no_file parse_any match_base no_memory
              x86_project empty_catalog (SigStr "a.sig")
              (world_of [func_1000; plt_stub]) 0 func_1000
              (mkFunction 0x1000 {[ 0x1000 := 0x20; 0x1020 := 0x10 ]}
                 false false false "inflate" (Some "flirt"))
              eq_refl eq_refl) as (H1 & _ & H3).
  - discriminate.
  - split; [exact H1|exact H3].
Defined.

End StubExamples.

(** * The length of the load *)

Section WindowFacts.

Context (project : Project).

Local Abbreviation scan_window := (FlirtAnalysis.scan_window project).

Lemma land_mask_even (a : Z) :
  0 ≤ a < 2 ^ 32 → Z.land a 0xfffffffe = 2 * (a / 2).
Proof.
  intros Ha. rewrite land_mask_small by done.
  apply Z.bits_inj'. intros n Hn. rewrite Z.clearbit_eqb.
  destruct (decide (n = 0)) as [->|Hne].
  - rewrite Z.testbit_even_0. simpl. by rewrite andb_false_r.
  - replace n with (Z.succ (n - 1)) at 3 by lia.
    rewrite Z.testbit_even_succ by lia.
    rewrite Z.div2_bits by lia.
    replace (Z.succ (n - 1)) with n by lia.
    replace (0 =? n) with false; [by rewrite andb_true_r|].
    symmetry. by apply Z.eqb_neq.
Qed.

Lemma land_mask_mono (a b : Z) :
  0 ≤ a ≤ b → b < 2 ^ 32 → Z.land a 0xfffffffe ≤ Z.land b 0xfffffffe.
Proof.
  intros Hab Hb. rewrite !land_mask_even by lia.
  apply Z.mul_le_mono_nonneg_l; [lia|]. apply Z.div_le_mono; lia.
Qed.

(** For a function whose blocks lie at or after its address and have no
    negative size, the window is not empty to the left: [start <= end], so
    the load asks for at least the [0x100] bytes of padding. On ARM this
    needs the addresses to lie in the 32-bit range, where the mask is
    monotone. *)
Theorem load_covers_padding (func : Function) (start end_ : Z) :
  scan_window func = Ok (start, end_) →
  (∀ a size, blocks func !! a = Some size → addr func ≤ a ∧ 0 ≤ size) →
  (is_arm_arch project = true →
   0 ≤ addr func ∧ ∀ a size, blocks func !! a = Some size → a + size < 2 ^ 32) →
  start ≤ end_ ∧ 0x100 ≤ end_ - start + 0x100.
Proof.
  intros Hw Hblocks Harm. unfold FlirtAnalysis.scan_window in Hw.
  destruct (Py.max (block_addrs_set func)) as [m|e] eqn:Em; [|done].
  apply max_in in Em. unfold block_addrs_set in Em.
  apply elem_of_dom in Em as [size Hm].
  unfold get_block_size, FlirtAnalysis._is_arm in Hw. rewrite Hm in Hw.
  simpl in Hw. destruct (Hblocks m size Hm) as [H1 H2].
  destruct (is_arm_arch project); injection Hw as <- <-.
  - destruct (Harm eq_refl) as [H0 H32]. specialize (H32 m size Hm).
    assert (Z.land (addr func) 0xfffffffe ≤ Z.land (m + size) 0xfffffffe)
      by (apply land_mask_mono; lia).
    lia.
  - lia.
Qed.

End WindowFacts.

Section WindowExamples.

Import Examples.

Lemma thumb_blocks_in_range (a size : Z) :
  blocks thumb_func !! a = Some size →
  (addr thumb_func ≤ a ∧ 0 ≤ size) ∧ a + size < 2 ^ 32.
Proof.
  unfold thumb_func. simpl. intros H.
  rewrite !lookup_insert in H. repeat case_decide; simplify_map_eq; lia.
Defined.

Lemma load_covers_padding_witness :
  0x1000 ≤ 0x1030 ∧ 0x100 ≤ 0x1030 - 0x1000 + 0x100.
Proof.
  apply (load_covers_padding arm_project thumb_func 0x1000 0x1030 eq_refl).
  - intros a size H. apply (thumb_blocks_in_range a size H).
  - intros _. split; [vm_compute; congruence|].
    intros a size H. apply (thumb_blocks_in_range a size H).
Defined.

Lemma zlib_catalog_loaded : FLIRT_SIGNATURES_BY_ARCH zlib_catalog ≠ ∅.
Proof.
  intros E.
  assert (H : FLIRT_SIGNATURES_BY_ARCH zlib_catalog !! "x86"%string
              = (∅ : gmap string (list FlirtSignature)) !! "x86"%string)
    by (by rewrite E).
  vm_compute in H. discriminate.
Defined.

Lemma heuristic_mode_witness :
  FlirtAnalysis.__init__ unit no_file parse_any no_match zlib_memory
    zlib_project zlib_catalog SigNone (world_of [named_func])
  = (mkWorld [named_func] []
       [EvLoad 0x400000 0x30; EvDebugSignatures 2;
        EvOpen "zlib_x86.sig"; EvClose "zlib_x86.sig";
        EvOpen "zlib_x86_static.sig"; EvClose "zlib_x86_static.sig"],
     Ok tt).
Proof.
  assert (H := heuristic_mode_runs_selected_signatures no_file parse_any
                 no_match zlib_memory zlib_project zlib_catalog
                 (world_of [named_func]) zlib_catalog_loaded).
  cbv zeta in H.
  change (Selector._find_hits_by_strings _ _ _)
    with (Ok [zlib_x86; zlib_x86_static]) in H.
  rewrite H. reflexivity.
Defined.

End WindowExamples.

(** * A second run changes nothing *)

Section Idempotence.

Context {FlirtFile : Type}.
Context (open_rb : string -> result bytes).
Context (parse_flirt_file : bytes -> result FlirtFile).
Context (match_function : FlirtFile -> bytes -> Z -> list (Z * FlirtFunction)).
Context (memory_load : Z -> Z -> bytes).
Context (project : Project) (catalog : Catalog).

Local Abbreviation on_func_matched := (FlirtAnalysis._on_func_matched project).
Local Abbreviation scan_window := (FlirtAnalysis.scan_window project).
Local Abbreviation scan_function :=
  (FlirtAnalysis.scan_function FlirtFile match_function memory_load project).
Local Abbreviation match_all :=
  (FlirtAnalysis._match_all_against_one_signature FlirtFile open_rb
     parse_flirt_file match_function memory_load project).
Local Abbreviation match_signatures :=
  (FlirtAnalysis.match_signatures FlirtFile open_rb parse_flirt_file
     match_function memory_load project).
Local Abbreviation init :=
  (FlirtAnalysis.__init__ FlirtFile open_rb parse_flirt_file match_function
     memory_load project catalog).
Local Abbreviation is_settled := (settled project).
Local Abbreviation hits_of := (scanned_hits match_function memory_load project).
Local Abbreviation stable := (stable_for match_function memory_load project).
Local Abbreviation done_with :=
  (done_with open_rb parse_flirt_file match_function memory_load project).

(** ** What the naming of functions keeps *)

Lemma evolves_addr (fs fs' : list Function) :
  evolves fs fs' → addr <$> fs = addr <$> fs'.
Proof.
  induction 1 as [|f f' fs fs' Hf H IH]; [done|].
  rewrite !fmap_cons, IH. f_equal.
  destruct Hf as [->|(_ & _ & _ & Hfr)]; [done|].
  unfold frame in Hfr. by injection Hfr.
Qed.

Lemma evolves_lookup_back (fs fs' : list Function) (j : nat) (f' : Function) :
  evolves fs fs' → fs' !! j = Some f' →
  ∃ f, fs !! j = Some f ∧ named_by_flirt f f'.
Proof.
  intros H Hj. destruct (Forall2_lookup_r _ _ _ _ _ H Hj) as (f & ? & ?).
  by exists f.
Qed.

Lemma evolves_eligible (fs fs' : list Function) (i : nat) (func : Function) :
  evolves fs fs' → fs' !! i = Some func → eligible func = true →
  fs !! i = Some func.
Proof.
  intros H Hi He.
  destruct (evolves_lookup_back fs fs' i func H Hi) as (f & Hf & [->|(_ & H2 & _)]);
    [done|].
  apply eligible_inv in He as [_ He]. congruence.
Qed.

Lemma settled_mono (fs fs' : list Function) (i : nat) (hit : Z * FlirtFunction) :
  evolves fs fs' → is_settled fs i hit → is_settled fs' i hit.
Proof.
  intros H. unfold settled.
  rewrite (target_ext project fs fs' i hit.1 hit.2 hit.2 (evolves_addr fs fs' H) eq_refl).
  destruct (hit_target project fs i hit.1 hit.2) as [j|]; [|done].
  intros Hs f' Hj'.
  destruct (evolves_lookup_back fs fs' j f' H Hj') as (f & Hj & [->|(_ & H2 & _)]);
    [by apply (Hs f)|done].
Qed.

Lemma stable_mono (flirt : FlirtFile) (fs fs' : list Function) :
  evolves fs fs' → stable flirt fs → stable flirt fs'.
Proof.
  intros H Hst i func Hi He.
  destruct (Hst i func (evolves_eligible fs fs' i func H Hi He) He) as [Hw Hh].
  split; [done|]. eapply Forall_impl; [exact Hh|].
  intros hit. by apply settled_mono.
Qed.

(** ** The first run settles every hit *)

Lemma on_func_matched_ok (func : nat) (base : Z) (ff : FlirtFunction) (w : World) :
  (on_func_matched func base ff w).2 = Ok tt.
Proof.
  unfold FlirtAnalysis._on_func_matched, bind, get_functions. simpl.
  destruct (if decide (base + offset ff ≠ base)
            then FlirtAnalysis.lookup_owner project (functions w) (base + offset ff)
            else Some func) as [j|]; [|done].
  destruct (functions w !! j) as [f|]; [|done].
  by destruct (is_default_name f).
Qed.

Lemma on_func_matched_settles (i : nat) (base : Z) (ff : FlirtFunction)
    (w : World) :
  is_settled (functions (on_func_matched i base ff w).1) i (base, ff).
Proof.
  unfold settled. simpl. rewrite (on_func_matched_functions project).
  destruct (hit_target project (functions w) i base ff) as [j|] eqn:Ht.
  - rewrite (target_ext project (functions w) _ i base ff ff);
      [|by rewrite addr_apply_name|done].
    rewrite Ht. intros f. unfold apply_name.
    destruct (functions w !! j) as [f0|] eqn:Hj; [|by rewrite Hj].
    destruct (is_default_name f0) eqn:Hd.
    + rewrite list_lookup_insert_eq by (by apply lookup_lt_Some in Hj).
      by intros [= <-].
    + rewrite Hj. by intros [= <-].
  - by rewrite Ht.
Qed.

(** What each round of a loop establishes holds at the end of the loop,
    when later rounds can only name functions. *)
Lemma for_each_post {A} (Post : A -> list Function -> Prop) (l : list A)
    (body : A -> M unit) :
  (∀ x, respects (body x)) →
  (∀ x fs fs', evolves fs fs' → Post x fs → Post x fs') →
  (∀ x w w', body x w = (w', Ok tt) → Post x (functions w')) →
  ∀ w w', for_each l body w = (w', Ok tt) →
    Forall (λ x, Post x (functions w')) l.
Proof.
  intros Hresp Hmono Hbody. induction l as [|x l IH]; intros w w' H; [constructor|].
  simpl in H. unfold bind in H.
  destruct (body x w) as [w1 [[]|e]] eqn:E; [|done]. constructor.
  - apply (Hmono x (functions w1)); [|by apply (Hbody x w)].
    destruct (respects_for_each l body Hresp w1) as [Hev _]. by rewrite H in Hev.
  - by apply (IH w1).
Qed.

Lemma scan_function_raises (flirt : FlirtFile) (i : nat) (w : World)
    (func : Function) (e : exn) :
  functions w !! i = Some func → eligible func = true →
  scan_window func = Raise e →
  scan_function flirt i w = (w, Raise e).
Proof.
  intros Hi [He1 He2]%eligible_inv Hw.
  unfold FlirtAnalysis.scan_function, bind, get_functions. simpl.
  rewrite Hi, He1, He2. simpl. unfold lift. by rewrite Hw.
Qed.

Lemma scan_function_post (flirt : FlirtFile) (i : nat) (w w' : World)
    (func : Function) :
  scan_function flirt i w = (w', Ok tt) →
  functions w' !! i = Some func → eligible func = true →
  (∃ win, scan_window func = Ok win)
  ∧ Forall (is_settled (functions w') i) (hits_of flirt func).
Proof.
  intros H Hi' He.
  destruct (respects_scan_function match_function memory_load project flirt i w)
    as [Hev _].
  rewrite H in Hev. simpl in Hev.
  assert (Hi := evolves_eligible _ _ _ _ Hev Hi' He).
  destruct (scan_window func) as [[start end_]|e] eqn:Ew.
  - rewrite (scan_function_eligible match_function memory_load project
               flirt i w func start end_ Hi He Ew) in H.
    split; [by eexists|]. unfold scanned_hits. rewrite Ew.
    eapply (for_each_post (λ hit fs, is_settled fs i hit)); [..|exact H].
    + intros hit. apply respects_on_func_matched.
    + intros hit fs fs'. apply settled_mono.
    + intros [base ff] w1 w1' E. simpl in E.
      replace w1' with (on_func_matched i base ff w1).1 by (by rewrite E).
      apply on_func_matched_settles.
  - by rewrite (scan_function_raises flirt i w func e Hi He Ew) in H.
Qed.

Lemma scan_all_post (flirt : FlirtFile) (n : nat) (w w' : World) :
  n = length (functions w) →
  for_each (seq 0 n) (scan_function flirt) w = (w', Ok tt) →
  stable flirt (functions w').
Proof.
  intros Hn H i func Hi He.
  assert (Hlen : length (functions w') = length (functions w)).
  { destruct (respects_for_each (seq 0 n) (scan_function flirt)
                (respects_scan_function match_function memory_load project flirt) w)
      as [Hev _].
    rewrite H in Hev. symmetry. by eapply Forall2_length. }
  assert (HF : Forall
    (λ i, ∀ func, functions w' !! i = Some func → eligible func = true →
       (∃ win, scan_window func = Ok win)
       ∧ Forall (is_settled (functions w') i) (hits_of flirt func))
    (seq 0 n)).
  { eapply (for_each_post
      (λ i fs, ∀ func, fs !! i = Some func → eligible func = true →
         (∃ win, scan_window func = Ok win)
         ∧ Forall (is_settled fs i) (hits_of flirt func))
      (seq 0 n) (scan_function flirt)); [..|exact H].
    - apply respects_scan_function.
    - intros j fs fs' Hev HP g Hg Hge.
      destruct (HP g (evolves_eligible fs fs' j g Hev Hg Hge) Hge) as [Hw Hh].
      split; [done|]. eapply Forall_impl; [exact Hh|].
      intros hit. by apply settled_mono.
    - intros j w1 w1' E g. by apply (scan_function_post flirt j w1 w1' g E). }
  rewrite Forall_forall in HF. apply (HF i); [|done|done].
  apply elem_of_seq. apply lookup_lt_Some in Hi. lia.
Qed.

Lemma match_all_post (sig : FlirtSignature) (w w' : World) :
  match_all sig w = (w', Ok tt) → done_with sig (functions w').
Proof.
  unfold FlirtAnalysis._match_all_against_one_signature, FlirtAnalysis.with_open.
  destruct (open_rb (sig_path sig)) as [sigfile|e] eqn:Eo; [|done].
  unfold bind at 1, lift.
  destruct (parse_flirt_file sigfile) as [flirt|e] eqn:Ep; [|done].
  unfold bind at 1, get_functions. cbn [functions].
  destruct (for_each _ _ _) as [w2 r] eqn:E. intros [= <- ->].
  exists sigfile, flirt. split; [done|]. split; [done|]. simpl.
  by apply (scan_all_post flirt _ _ w2 eq_refl E).
Qed.

Lemma match_signatures_post (sigs : list FlirtSignature) (w w' : World) :
  match_signatures sigs w = (w', Ok tt) →
  Forall (λ sig, done_with sig (functions w')) sigs.
Proof.
  apply (for_each_post done_with sigs match_all).
  - intros sig. apply respects_match_all.
  - intros sig fs fs' Hev (sigfile & flirt & Ho & Hp & Hst).
    exists sigfile, flirt. split; [done|]. split; [done|].
    by apply (stable_mono flirt fs).
  - intros sig w1 w1'. apply match_all_post.
Qed.

(** ** A run over settled hits *)

Lemma apply_name_settled (fs : list Function) (j : nat) (ff : FlirtFunction) :
  (∀ f, fs !! j = Some f → is_default_name f = false) →
  apply_name fs j ff = fs.
Proof.
  intros H. unfold apply_name. destruct (fs !! j) as [f|]; [|done].
  by rewrite (H f eq_refl).
Qed.

Lemma settled_hits_noop (hits : list (Z * FlirtFunction)) (i : nat) (w : World) :
  Forall (is_settled (functions w) i) hits →
  functions (for_each hits (λ hit, on_func_matched i hit.1 hit.2) w).1
    = functions w
  ∧ (for_each hits (λ hit, on_func_matched i hit.1 hit.2) w).2 = Ok tt.
Proof.
  revert w. induction hits as [|[base ff] hits IH]; intros w Hs; [done|].
  apply Forall_cons in Hs as [Hhit Hs]. simpl. unfold bind.
  assert (Hok := on_func_matched_ok i base ff w).
  assert (Hfs : functions (on_func_matched i base ff w).1 = functions w).
  { rewrite (on_func_matched_functions project). unfold settled in Hhit.
    simpl in Hhit.
    destruct (hit_target project (functions w) i base ff) as [j|]; [|done].
    by apply apply_name_settled. }
  destruct (on_func_matched i base ff w) as [w1 r]. simpl in *. subst r.
  rewrite <- Hfs. apply IH. by rewrite Hfs.
Qed.

Lemma scan_function_noop (flirt : FlirtFile) (i : nat) (w : World) :
  stable flirt (functions w) →
  functions (scan_function flirt i w).1 = functions w
  ∧ (scan_function flirt i w).2 = Ok tt.
Proof.
  intros Hst. destruct (functions w !! i) as [func|] eqn:Hi.
  - destruct (eligible func) eqn:He.
    + destruct (Hst i func Hi He) as [[[start end_] Ew] Hh].
      rewrite (scan_function_eligible match_function memory_load project
                 flirt i w func start end_ Hi He Ew).
      unfold scanned_hits in Hh. rewrite Ew in Hh.
      by apply (settled_hits_noop _ i (mkWorld (functions w) (open_files w) _)).
    + unfold FlirtAnalysis.scan_function, bind, get_functions. simpl.
      rewrite Hi. unfold eligible in He.
      destruct (is_simprocedure func || is_plt func); [done|].
      simpl in He. by rewrite He.
  - unfold FlirtAnalysis.scan_function, bind, get_functions. simpl.
    by rewrite Hi.
Qed.

Lemma for_each_noop {A} (P : A -> Prop) (l : list A) (body : A -> M unit)
    (fs : list Function) :
  (∀ x w, P x → functions w = fs →
     functions (body x w).1 = fs ∧ (body x w).2 = Ok tt) →
  Forall P l →
  ∀ w, functions w = fs →
    functions (for_each l body w).1 = fs ∧ (for_each l body w).2 = Ok tt.
Proof.
  intros Hbody Hl. induction Hl as [|x l Hx Hl IH]; intros w Hw; [done|].
  simpl. unfold bind. destruct (Hbody x w Hx Hw) as [H1 H2].
  destruct (body x w) as [w1 r]. simpl in *. subst r. by apply IH.
Qed.

Lemma match_all_noop (sig : FlirtSignature) (w : World) :
  done_with sig (functions w) →
  functions (match_all sig w).1 = functions w ∧ (match_all sig w).2 = Ok tt.
Proof.
  intros (sigfile & flirt & Ho & Hp & Hst).
  assert (E : match_all sig w =
            let '(w2, r) :=
              for_each (seq 0 (length (functions w))) (scan_function flirt)
                (mkWorld (functions w) (sig_path sig :: open_files w)
                   (trace w ++ [EvOpen (sig_path sig)])) in
            (mkWorld (functions w2) (remove_first (sig_path sig) (open_files w2))
               (trace w2 ++ [EvClose (sig_path sig)]), r)).
  { unfold FlirtAnalysis._match_all_against_one_signature, FlirtAnalysis.with_open.
    rewrite Ho. unfold bind, lift. by rewrite Hp. }
  rewrite E. clear E.
  destruct (for_each_noop (λ _, True) (seq 0 (length (functions w)))
              (scan_function flirt) (functions w)) with
    (w := mkWorld (functions w) (sig_path sig :: open_files w)
            (trace w ++ [EvOpen (sig_path sig)])) as [H1 H2].
  - intros i w1 _ Hw1. rewrite <- Hw1. apply scan_function_noop. by rewrite Hw1.
  - by apply Forall_forall.
  - done.
  - destruct (for_each _ _ _) as [w2 r]. simpl in *. by subst r.
Qed.

Lemma match_signatures_noop (sigs : list FlirtSignature) (w : World) :
  Forall (λ sig, done_with sig (functions w)) sigs →
  functions (match_signatures sigs w).1 = functions w
  ∧ (match_signatures sigs w).2 = Ok tt.
Proof.
  intros H.
  apply (for_each_noop (λ sig, done_with sig (functions w)) sigs match_all
           (functions w)); [|done|done].
  intros sig w1 Hd Hw1. rewrite <- Hw1. apply match_all_noop. by rewrite Hw1.
Qed.

(** Matching a list of signatures is idempotent on the knowledge base: when
    a run over the signatures ends normally, a second run over the same
    signatures, from any state with the functions the first run left, ends
    normally too and changes no function. *)
Theorem second_match_changes_nothing (sigs : list FlirtSignature)
    (w w1 w2 : World) :
  match_signatures sigs w = (w1, Ok tt) →
  functions w2 = functions w1 →
  functions (match_signatures sigs w2).1 = functions w1
  ∧ (match_signatures sigs w2).2 = Ok tt.
Proof.
  intros H Hw2. rewrite <- Hw2. apply match_signatures_noop.
  rewrite Hw2. by apply (match_signatures_post sigs w).
Qed.

(** ** The whole analysis *)

Lemma extend_nil (w : World) : extend w [] = w.
Proof. destruct w. unfold extend. simpl. by rewrite app_nil_r. Qed.

(** The part of [__init__] before the loop: it adds to the log and yields
    the signatures, or an error, independently of the state. *)
Lemma init_selection (sig : SigArg) :
  ∃ t r, ∀ w,
    init sig w =
    match r with
    | Ok (Some sigs) => match_signatures sigs (extend w t)
    | Ok None => (extend w t, Raise AttributeError)
    | Raise e => (extend w t, Raise e)
    end.
Proof.
  assert (Hh : ∃ t r, ∀ w,
            init SigNone w =
            match r with
            | Ok (Some sigs) => match_signatures sigs (extend w t)
            | Ok None => (extend w t, Raise AttributeError)
            | Raise e => (extend w t, Raise e)
            end).
  { unfold FlirtAnalysis.__init__, FlirtAnalysis.heuristic_signatures.
    destruct (bool_decide (FLIRT_SIGNATURES_BY_ARCH catalog = ∅)).
    - exists [], (Raise RuntimeError). intros w. by rewrite extend_nil.
    - set (segs := List.filter (λ seg, (0 <? filesize seg) && (0 <? memsize seg))
                     (segments project)).
      set (regions := map (λ seg, memory_load (vaddr seg) (memsize seg)) segs).
      set (loads := map (λ seg, EvLoad (vaddr seg) (memsize seg)) segs).
      destruct (Selector._find_hits_by_strings catalog (arch_name project) regions)
        as [sigs|e] eqn:Es.
      + exists (loads ++ [EvDebugSignatures (length sigs)]), (Ok (Some sigs)).
        intros w. unfold bind at 1, bind at 1, FlirtAnalysis.load_regions, bind at 1.
        rewrite for_each_log. fold segs. simpl. fold regions loads.
        unfold bind at 1, lift. rewrite Es.
        unfold bind, log, ret, extend. simpl. by rewrite <- app_assoc.
      + exists loads, (Raise e).
        intros w. unfold bind at 1, bind at 1, FlirtAnalysis.load_regions, bind at 1.
        rewrite for_each_log. fold segs. simpl. fold regions loads.
        unfold bind at 1, lift. by rewrite Es. }
  destruct sig as [|path|s]; [exact Hh| |].
  - destruct path as [|c path]; [exact Hh|].
    exists [], (Ok (Some [FlirtAnalysis.temporary_signature project (String c path)])).
    intros w. by rewrite extend_nil.
  - exists [], (Ok None). intros w. by rewrite extend_nil.
Qed.

(** The analysis is idempotent on the knowledge base: when it ends
    normally, running it again with the same argument, from any state with
    the functions the first run left, ends normally and changes no
    function. *)
Theorem second_run_changes_nothing (sig : SigArg) (w w1 w2 : World) :
  init sig w = (w1, Ok tt) →
  functions w2 = functions w1 →
  functions (init sig w2).1 = functions w1 ∧ (init sig w2).2 = Ok tt.
Proof.
  intros H Hw2. destruct (init_selection sig) as (t & r & Hinit).
  rewrite Hinit in H. rewrite Hinit.
  destruct r as [[sigs|]|e]; [|done|done].
  rewrite <- Hw2. change (functions w2) with (functions (extend w2 t)).
  apply match_signatures_noop. simpl. rewrite Hw2.
  by apply (match_signatures_post sigs (extend w t)).
Qed.

End Idempotence.

Section IdempotenceExamples.

Import Examples.

Lemma second_match_witness :
  functions
    (FlirtAnalysis.match_signatures unit no_file parse_any match_two no_memory
       x86_project [sig_of "x86" "a.sig"] run_over_stub.1).1
  = functions run_over_stub.1.
Proof.
  exact (proj1 (second_match_changes_nothing no_file parse_any match_two
                  no_memory x86_project [sig_of "x86" "a.sig"]
                  (world_of [func_1000; plt_stub])
                  (FlirtAnalysis.match_signatures unit no_file parse_any match_two
                     no_memory x86_project [sig_of "x86" "a.sig"]
                     (world_of [func_1000; plt_stub])).1
                  run_over_stub.1 eq_refl eq_refl)).
Defined.

Lemma second_run_witness :
  functions
    (FlirtAnalysis.__init__ unit no_file parse_any match_two no_memory
       x86_project empty_catalog (SigStr "a.sig") run_over_stub.1).1
  = functions run_over_stub.1.
Proof.
  exact (proj1 (second_run_changes_nothing no_file parse_any match_two
                  no_memory x86_project empty_catalog (SigStr "a.sig")
                  (world_of [func_1000; plt_stub]) run_over_stub.1
                  run_over_stub.1 eq_refl eq_refl)).
Defined.

End IdempotenceExamples.
